(** * joins: relational joins over two arrays of records

    A shallow embedding of the join library: the indexed left iterator
    [leftIterate], the symmetric combinator [leftRightIterate], the default
    merge and the seven join operations, as JavaScript runs them.

    What a call can do besides returning its rows is part of the model:
    - it can throw ([TypeError]), when a key value names something an array
      already resolves, when a key value is an object that cannot be turned
      into a property key, or when a record shadows [hasOwnProperty];
    - it can push rows into [Array.prototype], when a key value is the string
      [__proto__]; those rows stay there after the call and are seen by later
      calls, so a call takes and returns the elements of [Array.prototype].

    The built-in objects are those of the language: which names
    [Array.prototype] and [Object.prototype] define, and how the engine prints
    a built-in function, come with the [runtime].

    Values are the data values: [undefined], [null], booleans, the integers
    that JavaScript numbers hold exactly (below 2^53 in magnitude, which
    print in decimal), strings of one-byte characters, and plain objects. A
    record is a plain object: its prototype is [Object.prototype] and it holds
    own enumerable data fields. A [merge] handed to a join is a function of
    its two arguments; a [select] handed to an iterator may also throw.

    Input is ordinary when every key value becomes a property key that no
    array resolves and, for the default merge, no record has a field named
    [hasOwnProperty] or [__proto__]. On ordinary input the joins compute the
    list comprehensions given below; the theorems say so, and say what the
    code does on other input. *)

From stdpp Require Import gmap strings list fin_maps pretty.

Open Scope string_scope.
Open Scope list_scope.
Set Warnings "-register-all".

(** ** Values *)

(** A number that is an integer below 2^53 in magnitude. *)
Record jsint : Type := JsInt {
  intVal : Z;
  intSafe : Is_true (Z.abs intVal <? 9007199254740992)%Z
}.

Inductive value : Type :=
  | VUndefined
  | VNull
  | VBool (b : bool)
  | VNum (n : jsint)
  | VStr (s : string)
  | VObj (fields : gmap string value).

Abbreviation record := (gmap string value).

Abbreviation num n := (VNum (JsInt n I)).

(** What a callback returns: a data value, or an object whose prototype is
    not [Object.prototype] (the default merge can build one). *)
Inductive answer : Type :=
  | AValue (v : value)
  | ANullProto (own : record)
  | AWithProto (prototype own : record).

Coercion AValue : value >-> answer.

(** ToBoolean on a data value. *)
Definition truthyValue (v : value) : bool :=
  match v with
  | VUndefined | VNull => false
  | VBool b => b
  | VNum n => negb (intVal n =? 0)%Z
  | VStr s => negb (String.eqb s "")
  | VObj _ => true
  end.

(** ToBoolean: what [if (record)] tests. *)
Definition truthy (a : answer) : bool :=
  match a with
  | AValue v => truthyValue v
  | ANullProto _ | AWithProto _ _ => true
  end.

(** ** Outcomes *)

Inductive error : Type := TypeError.

Inductive outcome (A : Type) : Type :=
  | Return (a : A)
  | Throw (e : error).
Arguments Return {A} a.
Arguments Throw {A} e.

Global Instance outcome_ret : MRet outcome := @Return.
Global Instance outcome_bind : MBind outcome := λ A B f x,
  match x with
  | Return a => f a
  | Throw e => Throw e
  end.

(** ** The runtime *)

(** The built-in objects, as far as the library can meet them:
    [arrayMember] tells the names of the methods that [Array.prototype]
    defines (with [constructor]), [objectMember] those of the methods that
    [Object.prototype] defines, and [nativeSource] is the text that the engine
    gives for the built-in function of a name. [Object.prototype] also has
    the accessor [__proto__]. No built-in prototype of numbers, functions or
    objects defines [push] or [forEach]. *)
Record runtime : Type := Runtime {
  arrayMember : string → bool;
  objectMember : string → bool;
  nativeSource : string → string
}.

(** The built-ins of V8 (Node.js). *)
Definition v8 : runtime := {|
  arrayMember name :=
    bool_decide (name ∈
      [ "constructor"; "at"; "concat"; "copyWithin"; "fill"; "find";
        "findIndex"; "findLast"; "findLastIndex"; "lastIndexOf"; "pop";
        "push"; "reverse"; "shift"; "unshift"; "slice"; "sort"; "splice";
        "includes"; "indexOf"; "join"; "keys"; "entries"; "values";
        "forEach"; "filter"; "flat"; "flatMap"; "map"; "every"; "some";
        "reduce"; "reduceRight"; "toLocaleString"; "toString"; "toReversed";
        "toSorted"; "toSpliced"; "with" ]);
  objectMember name :=
    bool_decide (name ∈
      [ "constructor"; "__defineGetter__"; "__defineSetter__";
        "hasOwnProperty"; "__lookupGetter__"; "__lookupSetter__";
        "isPrototypeOf"; "propertyIsEnumerable"; "toString"; "valueOf";
        "toLocaleString" ]);
  nativeSource name :=
    "function " +:+ (if String.eqb name "constructor" then "Object" else name)
      +:+ "() { [native code] }"
|}.

(** The elements of [Array.prototype]: the rows that calls of the library
    have pushed into it, in order. A fresh runtime has none. *)
Abbreviation arrayPrototype := (list record).

(** ** Property keys *)

(** What [row[key]] evaluates to: a data value, [Object.prototype] itself
    (through the accessor [__proto__]), or a built-in method. *)
Inductive reference : Type :=
  | Data (v : value)
  | ObjectPrototype
  | Native (name : string).

(** The canonical numeric strings of the integers up to 2^32 - 2 are the
    array indices. *)
Definition digit (c : Ascii.ascii) : option N :=
  let n := Ascii.N_of_ascii c in
  if (48 <=? n)%N && (n <=? 57)%N then Some (n - 48)%N else None.

Fixpoint digits (s : string) (acc : N) : option N :=
  match s with
  | EmptyString => Some acc
  | String c s =>
      match digit c with
      | Some d => digits s (acc * 10 + d)%N
      | None => None
      end
  end.

Definition arrayIndex (P : string) : option N :=
  match P with
  | EmptyString => None
  | _ =>
      match digits P 0 with
      | Some n =>
          if bool_decide (pretty n = P) && (n <? 4294967295)%N
          then Some n else None
      | None => None
      end
  end.

(** ToPropertyKey on a data value. An object goes through ToPrimitive, which
    calls its [toString]: the one of [Object.prototype], unless the object
    has a field of that name, which is not a function. *)
Definition valueKey (v : value) : outcome string :=
  match v with
  | VUndefined => Return "undefined"
  | VNull => Return "null"
  | VBool true => Return "true"
  | VBool false => Return "false"
  | VNum n => Return (pretty (intVal n))
  | VStr s => Return s
  | VObj fields =>
      match fields !! "toString" with
      | Some _ => Throw TypeError
      | None => Return "[object Object]"
      end
  end.

(** ** Example data *)

(** The collections of [examples/allJoinsDefault.js]. *)
Definition people : list record :=
  [ {[ "name" := VStr "Joe Smith"; "accountId" := num 1 ]};
    {[ "name" := VStr "Julie Jones"; "accountId" := num 2 ]};
    {[ "name" := VStr "Mark Davis"; "accountId" := num 3 ]} ].

Definition property : list record :=
  [ {[ "pid" := num 1; "loc" := VStr "123 Main Street" ]};
    {[ "pid" := num 3; "loc" := VStr "45 West Third" ]};
    {[ "pid" := num 5; "loc" := VStr "917 Gothard Road" ]};
    {[ "pid" := num 3; "loc" := VStr "1700 Avenue K Apt 3" ]};
    {[ "pid" := num 4; "loc" := VStr "277 Highway 210" ]} ].

Section embedding.
Variable rt : runtime.

(** [row[key]], through the prototype chain of the record. *)
Definition getField (row : record) (key : string) : reference :=
  match row !! key with
  | Some v => Data v
  | None =>
      if String.eqb key "__proto__" then ObjectPrototype
      else if objectMember rt key then Native key
      else Data VUndefined
  end.

(** ToPropertyKey: the string under which [index[key]] stores and finds. *)
Definition toPropertyKey (key : reference) : outcome string :=
  match key with
  | Data v => valueKey v
  | ObjectPrototype => Return "[object Object]"
  | Native name => Return (nativeSource rt name)
  end.

(** ** The index *)

(** The index [var index = []] is an array used as a map. Its own
    properties are its [length] and the groups the first loop stores. *)
Abbreviation groups := (gmap string (list record)).

(** [index.length]: one more than the largest array index among the keys. *)
Definition indexLength (index : groups) : N :=
  map_fold (λ key _ n,
              match arrayIndex key with
              | Some i => N.max n (i + 1)
              | None => n
              end) 0%N index.

(** What [index[key]] evaluates to. *)
Inductive slot : Type :=
  | Group (rows : list record)   (* an array that the first loop stored *)
  | Length (n : N)               (* the number [index.length] *)
  | Element (r : record)         (* an element of [Array.prototype] *)
  | Prototype                    (* [Array.prototype], through [__proto__] *)
  | Member                       (* a built-in method *)
  | Absent.                      (* [undefined] *)

Definition indexGet (index : groups) (elements : arrayPrototype)
    (key : string) : slot :=
  match index !! key with
  | Some rows => Group rows
  | None =>
      if String.eqb key "length" then Length (indexLength index)
      else
        match arrayIndex key ≫= (λ i, elements !! N.to_nat i) with
        | Some r => Element r
        | None =>
            if String.eqb key "__proto__" then Prototype
            else if arrayMember rt key || objectMember rt key then Member
            else Absent
        end
  end.

(** Body of the first loop, after [key] has become a property key:
    [index[key] = index[key] || []; index[key].push(row)]. A group takes the
    row; so does [Array.prototype]; a number, a record and a function have no
    [push]. *)
Definition indexPush (index : groups) (elements : arrayPrototype)
    (key : string) (row : record) : outcome groups * arrayPrototype :=
  match indexGet index elements key with
  | Group rows => (Return (<[key := rows ++ [row]]> index), elements)
  | Absent => (Return (<[key := [row]]> index), elements)
  | Prototype => (Return index, elements ++ [row])
  | Length _ | Element _ | Member => (Throw TypeError, elements)
  end.

Fixpoint buildIndex (right : list record) (rightKey : string)
    (index : groups) (elements : arrayPrototype)
    : outcome groups * arrayPrototype :=
  match right with
  | [] => (Return index, elements)
  | row :: rest =>
      match toPropertyKey (getField row rightKey) with
      | Throw e => (Throw e, elements)
      | Return key =>
          match indexPush index elements key row with
          | (Return index, elements) =>
              buildIndex rest rightKey index elements
          | (Throw e, elements) => (Throw e, elements)
          end
      end
  end.

(** [entries = index[key] || [ null ]], as far as [entries.forEach] goes:
    the entries that [forEach] visits, or the error of calling a [forEach]
    that is not there. *)
Definition entriesOf (index : groups) (elements : arrayPrototype)
    (key : string) : outcome (list (option record)) :=
  match indexGet index elements key with
  | Group rows => Return (Some <$> rows)
  | Absent => Return [None]
  | Length n => if (n =? 0)%N then Return [None] else Throw TypeError
  | Prototype => Return (Some <$> elements)
  | Element _ | Member => Throw TypeError
  end.

(** [entries.forEach(function(entry) { ... })]. *)
Fixpoint forEachEntry (select : record → option record → outcome answer)
    (row : record) (entries : list (option record)) (result : list answer)
    : outcome (list answer) :=
  match entries with
  | [] => Return result
  | entry :: entries =>
      record ← select row entry;
      forEachEntry select row entries
        (if truthy record then result ++ [record] else result)
  end.

(** The second loop. *)
Fixpoint iterateLeft (select : record → option record → outcome answer)
    (index : groups) (elements : arrayPrototype)
    (left : list record) (leftKey : string) (result : list answer)
    : outcome (list answer) :=
  match left with
  | [] => Return result
  | row :: rest =>
      key ← toPropertyKey (getField row leftKey);
      entries ← entriesOf index elements key;
      result ← forEachEntry select row entries result;
      iterateLeft select index elements rest leftKey result
  end.

Definition leftIterate (left right : list record) (leftKey rightKey : string)
    (select : record → option record → outcome answer)
    (elements : arrayPrototype)
    : outcome (list answer) * arrayPrototype :=
  match buildIndex right rightKey ∅ elements with
  | (Return index, elements) =>
      (iterateLeft select index elements left leftKey [], elements)
  | (Throw e, elements) => (Throw e, elements)
  end.

(** [!x] on a null-or-record. *)
Definition isNull (x : option record) : bool :=
  match x with Some _ => false | None => true end.

(** [x || {}] on a null-or-record. *)
Definition orEmpty (x : option record) : record := default ∅ x.

(** In the second pass [right] is a row, so [if (right && !left)] tests
    [!left] alone. *)
Definition leftRightIterate (left right : list record)
    (leftKey rightKey : string)
    (select : option record → option record → outcome answer)
    (elements : arrayPrototype)
    : outcome (list answer) * arrayPrototype :=
  match leftIterate left right leftKey rightKey
          (λ left right, select (Some left) right) elements with
  | (Return leftResult, elements) =>
      match leftIterate right left rightKey leftKey
              (λ right left,
                 if isNull left then select left (Some right)
                 else Return (AValue VUndefined)) elements with
      | (Return rightResult, elements) =>
          (Return (leftResult ++ rightResult), elements)
      | (Throw e, elements) => (Throw e, elements)
      end
  | (Throw e, elements) => (Throw e, elements)
  end.

(** ** Default merge *)

(** The prototype of the record that the default merge is building. *)
Inductive prototype : Type :=
  | ProtoObject               (* [Object.prototype], as [{}] has it *)
  | ProtoNull
  | ProtoIs (p : record).

Record draft : Type := Draft {
  draftProto : prototype;
  draftOwn : record
}.

(** [record[prop] = v]. The assignment reaches the accessor [__proto__] of
    [Object.prototype] when no field of that name is met before it, and then
    sets the prototype (to an object or to [null]) and writes no field;
    otherwise it writes the field. *)
Definition assign (prop : string) (v : value) (rec : draft) : draft :=
  let reachesSetter :=
    String.eqb prop "__proto__" &&
    bool_decide (draftOwn rec !! prop = None) &&
    match draftProto rec with
    | ProtoObject => true
    | ProtoNull => false
    | ProtoIs p => bool_decide (p !! prop = None)
    end in
  if reachesSetter then
    match v with
    | VObj p => Draft (ProtoIs p) (draftOwn rec)
    | VNull => Draft ProtoNull (draftOwn rec)
    | _ => rec
    end
  else Draft (draftProto rec) (<[prop := v]> (draftOwn rec)).

(** One [for (prop in src) if (src.hasOwnProperty(prop)) record[prop] = src[prop]]
    loop. [src.hasOwnProperty] is the method of [Object.prototype] unless
    [src] has a field of that name, which cannot be called. *)
Definition copyOwn (src : record) (rec : draft) : outcome draft :=
  match src !! "hasOwnProperty" with
  | Some _ => Throw TypeError
  | None => Return (map_fold assign rec src)
  end.

Definition finish (rec : draft) : answer :=
  match draftProto rec with
  | ProtoObject => AValue (VObj (draftOwn rec))
  | ProtoNull => ANullProto (draftOwn rec)
  | ProtoIs p => AWithProto p (draftOwn rec)
  end.

Definition defaultMerge (left right : record) : outcome answer :=
  let record := Draft ProtoObject ∅ in
  record ← copyOwn left record;
  record ← copyOwn right record;
  Return (finish record).

(** [(merge || defaultMerge)(left, right)]: an omitted merge is [None]. *)
Definition mergeOr (merge : option (record → record → answer))
    (left right : record) : outcome answer :=
  match merge with
  | Some merge => Return (merge left right)
  | None => defaultMerge left right
  end.

(** ** The join operations *)

Section joins.
Variables (left right : list record) (leftKey rightKey : string).
Variable merge : option (record → record → answer).

(** A row handed to [select] as its first argument is a record, which is
    truthy: [if (left && right)] tests [right] alone. *)
Definition innerJoin :=
  leftIterate left right leftKey rightKey
    (λ left right,
       match right with
       | Some right => mergeOr merge left right
       | None => Return (AValue VUndefined)
       end).

Definition outerJoin :=
  leftRightIterate left right leftKey rightKey
    (λ left right, mergeOr merge (orEmpty left) (orEmpty right)).

Definition leftJoin :=
  leftIterate left right leftKey rightKey
    (λ left right, mergeOr merge left (orEmpty right)).

Definition rightJoin :=
  leftIterate right left rightKey leftKey
    (λ right left, mergeOr merge (orEmpty left) right).

Definition leftExcludingJoin :=
  leftIterate left right leftKey rightKey
    (λ left right,
       if isNull right then mergeOr merge left ∅
       else Return (AValue VUndefined)).

Definition rightExcludingJoin :=
  leftIterate right left rightKey leftKey
    (λ right left,
       if isNull left then mergeOr merge ∅ right
       else Return (AValue VUndefined)).

Definition outerExcludingJoin :=
  leftRightIterate left right leftKey rightKey
    (λ left right,
       if isNull left || isNull right
       then mergeOr merge (orEmpty left) (orEmpty right)
       else Return (AValue VUndefined)).
End joins.

Definition leftOuterJoin := leftJoin.
Definition rightOuterJoin := rightJoin.

(** ** The joins on ordinary input

    What the joins are meant to compute, written on lists: the rows that the
    two loops produce when every key is an ordinary one and nothing throws.
    The theorems below say when the code computes them. *)

(** The property key of a row, when its key value has one. *)
Definition keyOf (row : record) (key : string) : string :=
  match toPropertyKey (getField row key) with
  | Return P => P
  | Throw _ => ""
  end.

(** The rows of [right] whose key matches [k], in the order of [right]. *)
Definition matches (right : list record) (rightKey : string) (k : string)
    : list record :=
  filter (λ r, keyOf r rightKey = k) right.

Definition matchCount (right : list record) (rightKey : string) (k : string)
    : nat :=
  length (matches right rightKey k).

(** What a row with key [k] is paired with: its matches, or [null] once. *)
Definition candidates (right : list record) (rightKey : string) (k : string)
    : list (option record) :=
  match matches right rightKey k with
  | [] => [None]
  | ms => Some <$> ms
  end.

(** The calls of [select] that the iterator is meant to make. *)
Definition expectedCalls (left right : list record)
    (leftKey rightKey : string) : list (record * option record) :=
  left ≫= (λ row, pair row <$> candidates right rightKey (keyOf row leftKey)).

Definition idealIterate (left right : list record)
    (leftKey rightKey : string)
    (select : record → option record → answer) : list answer :=
  left ≫= (λ row,
    filter (λ v, truthy v)
      (select row <$> candidates right rightKey (keyOf row leftKey))).

Definition idealBoth (left right : list record)
    (leftKey rightKey : string)
    (select : option record → option record → answer) : list answer :=
  idealIterate left right leftKey rightKey
    (λ left right, select (Some left) right) ++
  idealIterate right left rightKey leftKey
    (λ right left,
       if isNull left then select left (Some right) else AValue VUndefined).

(** The fields of both records, those of [right] winning. *)
Definition unionMerge (left right : record) : record := right ∪ left.

Definition idealMerge (merge : option (record → record → answer))
    (left right : record) : answer :=
  match merge with
  | Some merge => merge left right
  | None => AValue (VObj (unionMerge left right))
  end.

Definition idealInnerJoin (left right : list record)
    (leftKey rightKey : string) (merge : option (record → record → answer))
    : list answer :=
  idealIterate left right leftKey rightKey
    (λ left right,
       match right with
       | Some row => idealMerge merge left row
       | None => AValue VUndefined
       end).

Definition idealOuterJoin (left right : list record)
    (leftKey rightKey : string) (merge : option (record → record → answer))
    : list answer :=
  idealBoth left right leftKey rightKey
    (λ left right, idealMerge merge (orEmpty left) (orEmpty right)).

Definition idealLeftJoin (left right : list record)
    (leftKey rightKey : string) (merge : option (record → record → answer))
    : list answer :=
  idealIterate left right leftKey rightKey
    (λ left right, idealMerge merge left (orEmpty right)).

Definition idealRightJoin (left right : list record)
    (leftKey rightKey : string) (merge : option (record → record → answer))
    : list answer :=
  idealIterate right left rightKey leftKey
    (λ right left, idealMerge merge (orEmpty left) right).

Definition idealLeftExcludingJoin (left right : list record)
    (leftKey rightKey : string) (merge : option (record → record → answer))
    : list answer :=
  idealIterate left right leftKey rightKey
    (λ left right,
       if isNull right then idealMerge merge left ∅ else AValue VUndefined).

Definition idealRightExcludingJoin (left right : list record)
    (leftKey rightKey : string) (merge : option (record → record → answer))
    : list answer :=
  idealIterate right left rightKey leftKey
    (λ right left,
       if isNull left then idealMerge merge ∅ right else AValue VUndefined).

Definition idealOuterExcludingJoin (left right : list record)
    (leftKey rightKey : string) (merge : option (record → record → answer))
    : list answer :=
  idealBoth left right leftKey rightKey
    (λ left right,
       if isNull left || isNull right
       then idealMerge merge (orEmpty left) (orEmpty right)
       else AValue VUndefined).

(** The merge with its arguments exchanged, for a join run with the two
    collections exchanged. *)
Definition swapMerge (merge : option (record → record → answer))
    : option (record → record → answer) :=
  Some (λ right left, idealMerge merge left right).

(** A row of [left] that no row of [right] matches. *)
Definition unmatched (right : list record) (leftKey rightKey : string)
    (row : record) : Prop :=
  matchCount right rightKey (keyOf row leftKey) = 0.

Global Typeclasses Opaque unmatched.

Global Instance unmatched_dec right leftKey rightKey row :
  Decision (unmatched right leftKey rightKey row) :=
  decide (matchCount right rightKey (keyOf row leftKey) = 0).

(** A name that every record inherits from [Object.prototype]: a record
    without a field of that name still has a value under it. *)
Definition inheritedName (key : string) : bool :=
  String.eqb key "__proto__" || objectMember rt key.

(** ** Ordinary input *)

(** A row has an ordinary key when its key value becomes a property key
    (the conversion does not throw) that an empty index does not resolve: not
    [length], not [__proto__], not the name of a built-in method, not the
    index of an element of [Array.prototype]. *)
Definition ordinaryKey (elements : arrayPrototype) (row : record)
    (key : string) : bool :=
  match toPropertyKey (getField row key) with
  | Return P =>
      match indexGet ∅ elements P with
      | Absent => true
      | _ => false
      end
  | Throw _ => false
  end.

Definition ordinaryRows (elements : arrayPrototype) (rows : list record)
    (key : string) : bool :=
  forallb (λ row, ordinaryKey elements row key) rows.

(** A record that the default merge copies field by field: it has no field
    named [hasOwnProperty] or [__proto__]. *)
Definition plainRecord (row : record) : bool :=
  bool_decide (row !! "hasOwnProperty" = None) &&
  bool_decide (row !! "__proto__" = None).

(** A given merge takes any rows; the default merge takes plain ones. *)
Definition mergeable (merge : option (record → record → answer))
    (rows : list record) : bool :=
  match merge with
  | Some _ => true
  | None => forallb plainRecord rows
  end.

Definition ordinary (elements : arrayPrototype) (left right : list record)
    (leftKey rightKey : string) (merge : option (record → record → answer))
    : bool :=
  ordinaryRows elements left leftKey &&
  ordinaryRows elements right rightKey &&
  mergeable merge (left ++ right).

(** ** What holds of a call whenever it returns *)

Definition whenReturns {A} (P : A → Prop) (o : outcome A) : Prop :=
  match o with
  | Return a => P a
  | Throw _ => True
  end.

(** Two calls return, leave [Array.prototype] as it was, and return the same
    rows up to their order. *)
Definition sameUpToOrder
    (call call' : arrayPrototype → outcome (list answer) * arrayPrototype)
    (elements : arrayPrototype) : Prop :=
  ∃ rows rows',
    call elements = (Return rows, elements) ∧
    call' elements = (Return rows', elements) ∧
    rows ≡ₚ rows'.

(** The answers that are objects. *)
Definition isObject (a : answer) : bool :=
  match a with
  | AValue (VObj _) | ANullProto _ | AWithProto _ _ => true
  | AValue _ => false
  end.

(** A property key that every index resolves to something that is not a
    group, whatever [Array.prototype] holds: [length], and the names of the
    built-in methods. *)
Definition reservedKey (key : string) : bool :=
  String.eqb key "length" ||
  ((arrayMember rt key || objectMember rt key) &&
   negb (String.eqb key "__proto__") &&
   bool_decide (arrayIndex key = None)).

(** ** Where the rows of an outer join come from *)

(** The calls of [select] that [leftRightIterate] is meant to make. *)
Definition expectedOuterCalls (left right : list record)
    (leftKey rightKey : string) : list (option record * option record) :=
  ((λ call, (Some call.1, call.2)) <$>
     expectedCalls left right leftKey rightKey) ++
  ((λ call, (call.2, Some call.1)) <$>
     filter (λ call, isNull call.2)
       (expectedCalls right left rightKey leftKey)).

(** Records are objects, told apart by identity and not by content: a row is
    named by its position in its collection. *)
Definition tagged (rows : list record) : list (nat * record) :=
  imap pair rows.

(** The pairs a left-driven pass visits, over positioned rows. *)
Definition pairing (left right : list (nat * record))
    (leftKey rightKey : string)
    : list ((nat * record) * option (nat * record)) :=
  left ≫= (λ l, pair l <$>
    match filter (λ r, keyOf r.2 rightKey = keyOf l.2 leftKey) right with
    | [] => [None]
    | ms => Some <$> ms
    end).

(** Where an output row of an outer join comes from: a positioned left row,
    a positioned right row, or both. *)
Definition origin : Type := option (nat * record) * option (nat * record).

Definition outerOrigins (left right : list record)
    (leftKey rightKey : string) : list origin :=
  ((λ p, (Some p.1, p.2)) <$>
     pairing (tagged left) (tagged right) leftKey rightKey) ++
  ((λ p, (p.2, Some p.1)) <$>
     filter (λ p, p.2 = None)
       (pairing (tagged right) (tagged left) rightKey leftKey)).

Definition erase (o : origin) : option record * option record :=
  (snd <$> o.1, snd <$> o.2).

Definition eraseCall (p : (nat * record) * option (nat * record))
    : record * option record :=
  (p.1.2, snd <$> p.2).

(** The row that the merge makes of an origin. *)
Definition rowOf (merge : option (record → record → answer)) (o : origin)
    : answer :=
  idealMerge merge (orEmpty (snd <$> o.1)) (orEmpty (snd <$> o.2)).

(** Outer join completeness: the call returns, leaves [Array.prototype] as
    it was, and its rows are, in order, the rows of the origins; every left row and every right row is in some
    origin; no origin occurs twice; the origins with both sides are the pairs
    of rows with matching keys; the origins with a right side only are the
    right rows that no left row matches. *)
Definition outerJoin_complete (elements : arrayPrototype)
    (left right : list record) (leftKey rightKey : string)
    (merge : option (record → record → answer)) : Prop :=
  let origins := outerOrigins left right leftKey rightKey in
  outerJoin left right leftKey rightKey merge elements =
    (Return (rowOf merge <$> origins), elements) ∧
  (∀ i l, left !! i = Some l → ∃ o, (Some (i, l), o) ∈ origins) ∧
  (∀ j r, right !! j = Some r → ∃ o, (o, Some (j, r)) ∈ origins) ∧
  NoDup origins ∧
  (∀ i l j r,
     (Some (i, l), Some (j, r)) ∈ origins ↔
     left !! i = Some l ∧ right !! j = Some r ∧
     keyOf l leftKey = keyOf r rightKey) ∧
  (∀ j r,
     (None, Some (j, r)) ∈ origins ↔
     right !! j = Some r ∧
     ∀ l, l ∈ left → keyOf l leftKey ≠ keyOf r rightKey).

(** The number of rows an index holds, over all its groups. *)
Definition indexSize (index : groups) : nat :=
  map_fold (λ _ rows n, length rows + n) 0 index.

(** * Lists *)

Lemma filter_bind_list {A B} (P : B → Prop) `{!∀ x, Decision (P x)}
    (f : A → list B) (l : list A) :
  filter P (l ≫= f) = l ≫= (λ x, filter P (f x)).
Proof.
  induction l as [|x l IH]; [done|].
  by rewrite !bind_cons, filter_app, IH.
Qed.

Lemma fmap_bind_list {A B C} (g : B → C) (f : A → list B) (l : list A) :
  g <$> (l ≫= f) = l ≫= (λ x, g <$> f x).
Proof.
  induction l as [|x l IH]; [done|].
  by rewrite !bind_cons, fmap_app, IH.
Qed.

Lemma bind_filter_singleton {A} (f : A → answer) (es : list A) :
  es ≫= (λ e, filter (λ v, truthy v) [f e]) =
  filter (λ v, truthy v) (f <$> es).
Proof.
  induction es as [|e es IH]; [done|].
  by rewrite bind_cons, IH, fmap_cons, <- filter_app.
Qed.

Lemma filter_truthy_undefined {A} (l : list A) :
  filter (λ v, truthy v) ((λ _, (AValue VUndefined)) <$> l) = [].
Proof. induction l as [|x l IH]; [done|]. by rewrite fmap_cons, filter_cons. Qed.

Lemma filter_truthy_all {A} (f : A → answer) (l : list A) :
  (∀ x, truthy (f x) = true) → filter (λ v, truthy v) (f <$> l) = f <$> l.
Proof.
  intros Hf. induction l as [|x l IH]; [done|].
  rewrite fmap_cons, filter_cons, IH.
  rewrite decide_True; [done|]. by rewrite Hf.
Qed.

Lemma bind_filter_list {A B} (P : A → Prop) `{!∀ x, Decision (P x)}
    (f : A → list B) (l : list A) :
  filter P l ≫= f = l ≫= (λ x, if decide (P x) then f x else []).
Proof.
  induction l as [|x l IH]; [done|].
  rewrite filter_cons, (bind_cons _ x l), <- IH.
  by destruct (decide (P x)).
Qed.

Lemma length_bind_sum {A B} (f : A → list B) (l : list A) :
  length (l ≫= f) = sum_list_with (λ x, length (f x)) l.
Proof.
  induction l as [|x l IH]; [done|].
  by rewrite bind_cons, length_app, IH.
Qed.

Lemma sum_list_with_pointwise {A} (f g : A → nat) (l : list A) :
  (∀ x, f x = g x) → sum_list_with f l = sum_list_with g l.
Proof.
  intros Hfg. induction l as [|x l IH]; [done|]. simpl. by rewrite Hfg, IH.
Qed.

Lemma sum_list_with_ge_length {A} (f : A → nat) (l : list A) :
  (∀ x, (1 ≤ f x)%nat) → (length l ≤ sum_list_with f l)%nat.
Proof.
  intros Hf. induction l as [|x l IH]; [done|].
  simpl. specialize (Hf x). lia.
Qed.

Lemma sum_list_with_const_one {A} (f : A → nat) (l : list A) :
  (∀ x, f x = 1) → sum_list_with f l = length l.
Proof.
  intros Hf. induction l as [|x l IH]; [done|]. simpl. by rewrite Hf, IH.
Qed.

Lemma sum_list_with_le_length {A} (f : A → nat) (l : list A) :
  (∀ x, (f x ≤ 1)%nat) → (sum_list_with f l ≤ length l)%nat.
Proof.
  intros Hf. induction l as [|x l IH]; [done|].
  simpl. specialize (Hf x). lia.
Qed.

Lemma fmap_filter_bind {A B} (P : A → Prop) `{!∀ x, Decision (P x)}
    (f : A → B) (l : list A) :
  f <$> filter P l = l ≫= (λ x, if decide (P x) then [f x] else []).
Proof.
  induction l as [|x l IH]; [done|].
  rewrite filter_cons, bind_cons, <- IH. by destruct (decide (P x)).
Qed.

Lemma bind_app_Permutation {A B} (g h : A → list B) (l : list A) :
  l ≫= (λ x, g x ++ h x) ≡ₚ (l ≫= g) ++ (l ≫= h).
Proof.
  induction l as [|x l IH]; [done|].
  rewrite !bind_cons, IH, <- !app_assoc. f_equiv.
  apply Permutation_app_swap_app.
Qed.

Lemma bind_const_nil {A B} (l : list A) : l ≫= (λ _, @nil B) = [].
Proof. induction l as [|x l IH]; [done|]. by rewrite bind_cons, IH. Qed.

Lemma bind_exchange_Permutation {A B C} (f : A → B → list C)
    (la : list A) (lb : list B) :
  la ≫= (λ a, lb ≫= f a) ≡ₚ lb ≫= (λ b, la ≫= (λ a, f a b)).
Proof.
  induction la as [|a la IH].
  - rewrite (list_bind_ext _ (λ _, []) lb lb); [|done..].
    by rewrite bind_const_nil.
  - rewrite bind_cons, IH, <- bind_app_Permutation.
    reflexivity.
Qed.

Lemma sublist_bind_pointwise {A B} (f g : A → list B) (l : list A) :
  (∀ x, sublist (f x) (g x)) → sublist (l ≫= f) (l ≫= g).
Proof.
  intros Hfg. induction l as [|x l IH]; [done|].
  rewrite !bind_cons. by apply sublist_app.
Qed.

Lemma filter_truthy_fmap_filter_bind {A} (P : A → Prop)
    `{!∀ x, Decision (P x)} (g : A → answer) (l : list A) :
  filter (λ v, truthy v) (g <$> filter P l) =
  l ≫= (λ x, if decide (P x) then filter (λ v, truthy v) [g x] else []).
Proof.
  induction l as [|x l IH]; [done|].
  rewrite filter_cons, bind_cons, <- IH.
  destruct (decide (P x)); [|done].
  by rewrite fmap_cons, <- filter_app.
Qed.

Lemma filter_fmap_list {A B} (P : B → Prop) `{!∀ x, Decision (P x)}
    (f : A → B) (l : list A) :
  filter P (f <$> l) = f <$> filter (λ x, P (f x)) l.
Proof.
  induction l as [|x l IH]; [done|].
  rewrite fmap_cons, !filter_cons, IH. by destruct (decide (P (f x))).
Qed.


Lemma filter_truthy_guard {A} (b : A → bool) (f : A → answer) (l : list A) :
  filter (λ v, truthy v) ((λ x, if b x then f x else (AValue VUndefined)) <$> l) =
  filter (λ v, truthy v) (f <$> filter (λ x, b x) l).
Proof.
  induction l as [|x l IH]; [done|].
  rewrite fmap_cons, (filter_cons (λ x, b x)), filter_cons, IH.
  destruct (b x).
  - rewrite (decide_True (P := Is_true true)) by done.
    by rewrite fmap_cons, filter_cons.
  - rewrite (decide_False (P := Is_true false)) by (by intros ?).
    by rewrite (decide_False (P := Is_true (truthy (AValue VUndefined))))
      by (by intros ?).
Qed.

(** * The list comprehensions *)

Lemma idealIterate_bind left right leftKey rightKey select :
  idealIterate left right leftKey rightKey select =
  left ≫= (λ row,
    filter (λ v, truthy v)
      (select row <$> candidates right rightKey (keyOf row leftKey))).
Proof. reflexivity. Qed.

Lemma expectedCalls_bind left right leftKey rightKey :
  expectedCalls left right leftKey rightKey =
  left ≫= (λ row, pair row <$> candidates right rightKey (keyOf row leftKey)).
Proof. reflexivity. Qed.

Lemma unionMerge_lookup (left right : record) (prop : string) :
  unionMerge left right !! prop =
  match right !! prop with Some v => Some v | None => left !! prop end.
Proof.
  unfold unionMerge. rewrite lookup_union.
  by destruct (right !! prop), (left !! prop).
Qed.

Lemma unionMerge_empty_r (left : record) : unionMerge left ∅ = left.
Proof. apply map_eq. intros k. by rewrite unionMerge_lookup, lookup_empty. Qed.

Lemma unionMerge_empty_l (right : record) : unionMerge ∅ right = right.
Proof.
  apply map_eq. intros k. rewrite unionMerge_lookup, lookup_empty.
  by destruct (right !! k).
Qed.

Lemma idealIterate_ext left right leftKey rightKey select1 select2 :
  (∀ row entry, select1 row entry = select2 row entry) →
  idealIterate left right leftKey rightKey select1 =
  idealIterate left right leftKey rightKey select2.
Proof.
  intros Hsel. rewrite !idealIterate_bind.
  apply list_bind_ext; [|done].
  intros row. f_equal. apply list_fmap_ext. intros _ e _. apply Hsel.
Qed.

Lemma idealIterate_app left1 left2 right leftKey rightKey select :
  idealIterate (left1 ++ left2) right leftKey rightKey select =
  idealIterate left1 right leftKey rightKey select ++
  idealIterate left2 right leftKey rightKey select.
Proof. by rewrite !idealIterate_bind, bind_app. Qed.

Lemma idealIterate_one row right leftKey rightKey select :
  idealIterate [row] right leftKey rightKey select =
  filter (λ v, truthy v)
    (select row <$> candidates right rightKey (keyOf row leftKey)).
Proof. rewrite idealIterate_bind, bind_cons. apply app_nil_r. Qed.

Lemma idealIterate_calls left right leftKey rightKey select :
  idealIterate left right leftKey rightKey select =
  filter (λ v, truthy v)
    ((λ call, select call.1 call.2) <$>
       expectedCalls left right leftKey rightKey).
Proof.
  rewrite idealIterate_bind, expectedCalls_bind.
  rewrite fmap_bind_list, filter_bind_list.
  apply list_bind_ext; [|done].
  intros row. by rewrite <- list_fmap_compose.
Qed.

Lemma idealInnerJoin_one row right leftKey rightKey merge :
  idealInnerJoin [row] right leftKey rightKey merge =
  filter (λ v, truthy v)
    (idealMerge merge row <$> matches right rightKey (keyOf row leftKey)).
Proof.
  unfold idealInnerJoin. rewrite idealIterate_one. unfold candidates.
  destruct (matches right rightKey (keyOf row leftKey)) as [|r ms]; [done|].
  by rewrite <- list_fmap_compose.
Qed.

Lemma idealLeftJoin_one row right leftKey rightKey merge :
  idealLeftJoin [row] right leftKey rightKey merge =
  filter (λ v, truthy v)
    match matches right rightKey (keyOf row leftKey) with
    | [] => [idealMerge merge row ∅]
    | ms => idealMerge merge row <$> ms
    end.
Proof.
  unfold idealLeftJoin. rewrite idealIterate_one. unfold candidates.
  destruct (matches right rightKey (keyOf row leftKey)) as [|r ms]; [done|].
  by rewrite <- list_fmap_compose.
Qed.

Lemma idealLeftExcludingJoin_one row right leftKey rightKey merge :
  idealLeftExcludingJoin [row] right leftKey rightKey merge =
  match matches right rightKey (keyOf row leftKey) with
  | [] => filter (λ v, truthy v) [idealMerge merge row ∅]
  | _ => []
  end.
Proof.
  unfold idealLeftExcludingJoin. rewrite idealIterate_one. unfold candidates.
  destruct (matches right rightKey (keyOf row leftKey)) as [|r ms]; [done|].
  rewrite <- list_fmap_compose. apply (filter_truthy_undefined (r :: ms)).
Qed.

Lemma idealInnerJoin_one_default row right leftKey rightKey :
  idealInnerJoin [row] right leftKey rightKey None =
  (λ r, AValue (VObj (unionMerge row r))) <$>
    matches right rightKey (keyOf row leftKey).
Proof. rewrite idealInnerJoin_one. by apply filter_truthy_all. Qed.

Lemma idealLeftJoin_one_default row right leftKey rightKey :
  idealLeftJoin [row] right leftKey rightKey None =
  match matches right rightKey (keyOf row leftKey) with
  | [] => [AValue (VObj (unionMerge row ∅))]
  | ms => (λ r, AValue (VObj (unionMerge row r))) <$> ms
  end.
Proof.
  rewrite idealLeftJoin_one.
  destruct (matches right rightKey (keyOf row leftKey)) as [|r ms]; [done|].
  by apply (filter_truthy_all _ (r :: ms)).
Qed.

Lemma idealInnerJoin_app left1 left2 right leftKey rightKey merge :
  idealInnerJoin (left1 ++ left2) right leftKey rightKey merge =
  idealInnerJoin left1 right leftKey rightKey merge ++
  idealInnerJoin left2 right leftKey rightKey merge.
Proof. apply idealIterate_app. Qed.

Lemma idealLeftJoin_app left1 left2 right leftKey rightKey merge :
  idealLeftJoin (left1 ++ left2) right leftKey rightKey merge =
  idealLeftJoin left1 right leftKey rightKey merge ++
  idealLeftJoin left2 right leftKey rightKey merge.
Proof. apply idealIterate_app. Qed.

Lemma idealLeftExcludingJoin_app left1 left2 right leftKey rightKey merge :
  idealLeftExcludingJoin (left1 ++ left2) right leftKey rightKey merge =
  idealLeftExcludingJoin left1 right leftKey rightKey merge ++
  idealLeftExcludingJoin left2 right leftKey rightKey merge.
Proof. apply idealIterate_app. Qed.

Lemma matches_elem right rightKey k r :
  r ∈ matches right rightKey k ↔ keyOf r rightKey = k ∧ r ∈ right.
Proof. unfold matches. by rewrite list_elem_of_filter. Qed.

Lemma idealInnerJoin_elem_default left right leftKey rightKey l r :
  l ∈ left → r ∈ right → keyOf l leftKey = keyOf r rightKey →
  AValue (VObj (unionMerge l r)) ∈ idealInnerJoin left right leftKey rightKey None.
Proof.
  intros Hl Hr Hkey.
  apply list_elem_of_split in Hl as (before & after & ->).
  change (l :: after) with ([l] ++ after).
  rewrite !idealInnerJoin_app, idealInnerJoin_one_default, !elem_of_app.
  right; left.
  apply (list_elem_of_fmap_2 (λ r, AValue (VObj (unionMerge l r)))).
  by apply matches_elem.
Qed.

Lemma idealInnerJoin_rows left right leftKey rightKey merge :
  idealInnerJoin left right leftKey rightKey merge =
  left ≫= (λ row,
    filter (λ v, truthy v)
      (idealMerge merge row <$> matches right rightKey (keyOf row leftKey))).
Proof.
  unfold idealInnerJoin. rewrite idealIterate_bind. apply list_bind_ext; [|done].
  intros row. unfold candidates.
  destruct (matches right rightKey (keyOf row leftKey)) as [|r ms]; [done|].
  by rewrite <- list_fmap_compose.
Qed.

Lemma idealLeftJoin_rows left right leftKey rightKey merge :
  idealLeftJoin left right leftKey rightKey merge =
  left ≫= (λ row,
    filter (λ v, truthy v)
      match matches right rightKey (keyOf row leftKey) with
      | [] => [idealMerge merge row ∅]
      | ms => idealMerge merge row <$> ms
      end).
Proof.
  unfold idealLeftJoin. rewrite idealIterate_bind. apply list_bind_ext; [|done].
  intros row. unfold candidates.
  destruct (matches right rightKey (keyOf row leftKey)) as [|r ms]; [done|].
  by rewrite <- list_fmap_compose.
Qed.

Lemma idealLeftExcludingJoin_rows left right leftKey rightKey merge :
  idealLeftExcludingJoin left right leftKey rightKey merge =
  left ≫= (λ row,
    match matches right rightKey (keyOf row leftKey) with
    | [] => filter (λ v, truthy v) [idealMerge merge row ∅]
    | _ => []
    end).
Proof.
  unfold idealLeftExcludingJoin. rewrite idealIterate_bind.
  apply list_bind_ext; [|done].
  intros row. unfold candidates.
  destruct (matches right rightKey (keyOf row leftKey)) as [|r ms]; [done|].
  rewrite <- list_fmap_compose. apply (filter_truthy_undefined (r :: ms)).
Qed.

Lemma idealRightJoin_swap left right leftKey rightKey merge :
  idealRightJoin left right leftKey rightKey merge =
  idealLeftJoin right left rightKey leftKey (swapMerge merge).
Proof. reflexivity. Qed.

Lemma idealRightExcludingJoin_swap left right leftKey rightKey merge :
  idealRightExcludingJoin left right leftKey rightKey merge =
  idealLeftExcludingJoin right left rightKey leftKey (swapMerge merge).
Proof. reflexivity. Qed.

Lemma idealOuterJoin_two_passes left right leftKey rightKey merge :
  idealOuterJoin left right leftKey rightKey merge =
  idealLeftJoin left right leftKey rightKey merge ++
  idealLeftExcludingJoin right left rightKey leftKey (swapMerge merge).
Proof.
  unfold idealOuterJoin, idealBoth, idealLeftJoin, idealLeftExcludingJoin.
  f_equal. apply idealIterate_ext. by intros row [entry|].
Qed.

Lemma idealOuterExcludingJoin_two_passes left right leftKey rightKey merge :
  idealOuterExcludingJoin left right leftKey rightKey merge =
  idealLeftExcludingJoin left right leftKey rightKey merge ++
  idealLeftExcludingJoin right left rightKey leftKey (swapMerge merge).
Proof.
  unfold idealOuterExcludingJoin, idealBoth, idealLeftExcludingJoin.
  f_equal; apply idealIterate_ext; by intros row [entry|].
Qed.

Lemma idealLeftJoin_block left right leftKey rightKey merge :
  idealLeftJoin left right leftKey rightKey merge =
  left ≫= (λ row,
    filter (λ v, truthy v)
      (idealMerge merge row <$> matches right rightKey (keyOf row leftKey)) ++
    match matches right rightKey (keyOf row leftKey) with
    | [] => filter (λ v, truthy v) [idealMerge merge row ∅]
    | _ => []
    end).
Proof.
  rewrite idealLeftJoin_rows. apply list_bind_ext; [|done].
  intros row.
  destruct (matches right rightKey (keyOf row leftKey)) as [|r ms]; [done|].
  by rewrite app_nil_r.
Qed.

Lemma idealLeftJoin_Permutation left right leftKey rightKey merge :
  idealLeftJoin left right leftKey rightKey merge ≡ₚ
  idealInnerJoin left right leftKey rightKey merge ++
  idealLeftExcludingJoin left right leftKey rightKey merge.
Proof.
  rewrite idealLeftJoin_block, idealInnerJoin_rows, idealLeftExcludingJoin_rows.
  apply bind_app_Permutation.
Qed.

Lemma idealInnerJoin_swap_Permutation left right leftKey rightKey merge :
  idealInnerJoin left right leftKey rightKey merge ≡ₚ
  idealInnerJoin right left rightKey leftKey (swapMerge merge).
Proof.
  rewrite !idealInnerJoin_rows. unfold matches.
  rewrite (list_bind_ext _ (λ l, right ≫= (λ r,
    if decide (keyOf r rightKey = keyOf l leftKey)
    then filter (λ v, truthy v) [idealMerge merge l r] else [])) left left);
    [|intros l; apply filter_truthy_fmap_filter_bind|done].
  rewrite (list_bind_ext _ (λ r, left ≫= (λ l,
    if decide (keyOf r rightKey = keyOf l leftKey)
    then filter (λ v, truthy v) [idealMerge merge l r] else [])) right right);
    [apply bind_exchange_Permutation| |done].
  intros r. rewrite filter_truthy_fmap_filter_bind.
  apply list_bind_ext; [|done]. intros l.
  destruct (decide (keyOf l leftKey = keyOf r rightKey)) as [Heq|Hne].
  - by rewrite decide_True.
  - by rewrite decide_False.
Qed.

Lemma idealRightJoin_Permutation left right leftKey rightKey merge :
  idealRightJoin left right leftKey rightKey merge ≡ₚ
  idealInnerJoin left right leftKey rightKey merge ++
  idealRightExcludingJoin left right leftKey rightKey merge.
Proof.
  rewrite idealRightJoin_swap, idealRightExcludingJoin_swap, idealLeftJoin_Permutation.
  by rewrite <- idealInnerJoin_swap_Permutation.
Qed.

Lemma idealLeftJoin_empty_right left leftKey rightKey merge :
  idealLeftJoin left [] leftKey rightKey merge =
  filter (λ v, truthy v) ((λ l, idealMerge merge l ∅) <$> left).
Proof. rewrite idealLeftJoin_rows. apply bind_filter_singleton. Qed.

Lemma idealLeftExcludingJoin_empty_right left leftKey rightKey merge :
  idealLeftExcludingJoin left [] leftKey rightKey merge =
  filter (λ v, truthy v) ((λ l, idealMerge merge l ∅) <$> left).
Proof. rewrite idealLeftExcludingJoin_rows. apply bind_filter_singleton. Qed.

Lemma idealInnerJoin_empty_right left leftKey rightKey merge :
  idealInnerJoin left [] leftKey rightKey merge = [].
Proof. rewrite idealInnerJoin_rows. apply bind_const_nil. Qed.

Lemma matchCount_unique right rightKey k :
  NoDup ((λ r, keyOf r rightKey) <$> right) →
  (matchCount right rightKey k ≤ 1)%nat.
Proof.
  unfold matchCount, matches.
  induction right as [|r right IH]; intros Hnodup; [simpl; lia|].
  rewrite fmap_cons in Hnodup. apply NoDup_cons in Hnodup as [Hr Hnodup].
  rewrite filter_cons. destruct (decide (keyOf r rightKey = k)) as [Hk|Hk].
  - assert (filter (λ r, keyOf r rightKey = k) right = []) as ->; [|done].
    destruct (filter (λ r, keyOf r rightKey = k) right) as [|r' rs] eqn:Hf;
      [done|].
    assert (r' ∈ filter (λ r, keyOf r rightKey = k) right) as Hin
      by (rewrite Hf; apply list_elem_of_here).
    apply list_elem_of_filter in Hin as [Hk' Hr'].
    destruct Hr. apply list_elem_of_fmap. exists r'. by rewrite Hk, Hk'.
  - by apply IH.
Qed.

Lemma idealLeftJoin_length_default left right leftKey rightKey :
  length (idealLeftJoin left right leftKey rightKey None) =
  sum_list_with
    (λ row, matchCount right rightKey (keyOf row leftKey) `max` 1) left.
Proof.
  rewrite idealLeftJoin_rows, length_bind_sum. apply sum_list_with_pointwise.
  intros row. unfold matchCount.
  destruct (matches right rightKey (keyOf row leftKey)) as [|r ms]; [done|].
  rewrite (filter_truthy_all _ (r :: ms)) by done.
  rewrite length_fmap. simpl. lia.
Qed.

Lemma idealInnerJoin_length_default left right leftKey rightKey :
  length (idealInnerJoin left right leftKey rightKey None) =
  sum_list_with (λ row, matchCount right rightKey (keyOf row leftKey)) left.
Proof.
  rewrite idealInnerJoin_rows, length_bind_sum. apply sum_list_with_pointwise.
  intros row. rewrite filter_truthy_all by done. by rewrite length_fmap.
Qed.

Lemma idealRightJoin_length_ge left right leftKey rightKey :
  (length right ≤ length (idealRightJoin left right leftKey rightKey None))%nat.
Proof.
  rewrite idealRightJoin_swap, idealLeftJoin_rows, length_bind_sum.
  apply sum_list_with_ge_length. intros r.
  destruct (matches left leftKey (keyOf r rightKey)) as [|l ms].
  - simpl. lia.
  - rewrite (filter_truthy_all _ (l :: ms)) by done.
    rewrite length_fmap. simpl. lia.
Qed.




Lemma idealIterate_all_falsy left right leftKey rightKey select :
  (∀ row entry, truthy (select row entry) = false) →
  idealIterate left right leftKey rightKey select = [].
Proof.
  intros Hfalsy. rewrite idealIterate_calls.
  induction (expectedCalls left right leftKey rightKey) as [|c cs IH]; [done|].
  rewrite fmap_cons, filter_cons, IH.
  rewrite decide_False; [done|]. rewrite Hfalsy. by intros ?.
Qed.

Lemma tagged_snd rows : (tagged rows).*2 = rows.
Proof.
  unfold tagged. rewrite fmap_imap.
  rewrite (imap_ext _ (const id)); [|done].
  by rewrite imap_const, list_fmap_id.
Qed.

Lemma tagged_elem rows i row : (i, row) ∈ tagged rows ↔ rows !! i = Some row.
Proof.
  unfold tagged. rewrite elem_of_lookup_imap. split.
  - by intros (i' & row' & [= -> ->] & Hrow).
  - intros Hrow. by exists i, row.
Qed.

Lemma tagged_NoDup rows : NoDup (tagged rows).
Proof.
  apply NoDup_alt. intros i j [k row] Hi Hj. unfold tagged in *.
  apply list_lookup_imap_Some in Hi as (y & _ & [= -> _]).
  by apply list_lookup_imap_Some in Hj as (z & _ & [= -> _]).
Qed.

Lemma tagged_elem_snd rows tr : tr ∈ tagged rows → tr.2 ∈ rows.
Proof.
  destruct tr as [i row]. rewrite tagged_elem.
  intros Hrow. by apply list_elem_of_lookup_2 in Hrow.
Qed.

Lemma elem_snd_tagged rows row : row ∈ rows → ∃ i, (i, row) ∈ tagged rows.
Proof.
  intros (i & Hi)%list_elem_of_lookup. exists i. by apply tagged_elem.
Qed.

Lemma candidates_tagged (right : list (nat * record)) rightKey k :
  candidates right.*2 rightKey k =
  fmap snd <$>
    match filter (λ r, keyOf r.2 rightKey = k) right with
    | [] => [None]
    | ms => Some <$> ms
    end.
Proof.
  unfold candidates, matches. rewrite filter_fmap_list.
  destruct (filter _ right) as [|r ms]; [reflexivity|].
  change ((r :: ms).*2) with (r.2 :: ms.*2). cbv iota.
  change (r.2 :: ms.*2) with ((r :: ms).*2).
  by rewrite <- !list_fmap_compose.
Qed.

Lemma pairing_erase (left right : list (nat * record)) leftKey rightKey :
  eraseCall <$> pairing left right leftKey rightKey =
  expectedCalls left.*2 right.*2 leftKey rightKey.
Proof.
  rewrite expectedCalls_bind. unfold pairing.
  rewrite fmap_bind_list, list_fmap_bind.
  apply list_bind_ext; [|done].
  intros l. simpl. rewrite candidates_tagged.
  by rewrite <- !list_fmap_compose.
Qed.

Lemma pairing_elem_Some left right leftKey rightKey l r :
  (l, Some r) ∈ pairing left right leftKey rightKey ↔
  l ∈ left ∧ r ∈ right ∧ keyOf r.2 rightKey = keyOf l.2 leftKey.
Proof.
  unfold pairing. rewrite list_elem_of_bind. split.
  - intros (l' & Hin & Hl').
    apply list_elem_of_fmap in Hin as (e & [= -> <-] & He).
    split; [done|].
    destruct (filter _ right) as [|r0 ms] eqn:Hms.
    + apply list_elem_of_singleton in He. done.
    + rewrite <- Hms in He.
      apply list_elem_of_fmap in He as (r' & [= ->] & Hr').
      apply list_elem_of_filter in Hr' as [Hk Hr']. done.
  - intros (Hl & Hr & Hk). exists l. split; [|done].
    apply list_elem_of_fmap_2.
    assert (r ∈ filter (λ r, keyOf r.2 rightKey = keyOf l.2 leftKey) right)
      as Hin by by apply list_elem_of_filter.
    destruct (filter _ right) as [|r0 ms] eqn:Hms.
    + by apply elem_of_nil in Hin.
    + by apply list_elem_of_fmap_2.
Qed.

Lemma pairing_elem_None left right leftKey rightKey l :
  (l, None) ∈ pairing left right leftKey rightKey ↔
  l ∈ left ∧ ∀ r, r ∈ right → keyOf r.2 rightKey ≠ keyOf l.2 leftKey.
Proof.
  unfold pairing. rewrite list_elem_of_bind. split.
  - intros (l' & Hin & Hl').
    apply list_elem_of_fmap in Hin as (e & [= <- <-] & He).
    split; [done|]. intros r Hr Hk.
    assert (r ∈ filter (λ r, keyOf r.2 rightKey = keyOf l.2 leftKey) right)
      as Hin by by apply list_elem_of_filter.
    destruct (filter _ right) as [|r0 ms] eqn:Hms.
    + by apply elem_of_nil in Hin.
    + apply list_elem_of_fmap in He as (r' & [=] & _).
  - intros (Hl & Hnone). exists l. split; [|done].
    apply (list_elem_of_fmap_2 (pair l) _ None).
    destruct (filter _ right) as [|r0 ms] eqn:Hms.
    + apply list_elem_of_here.
    + assert (r0 ∈ filter (λ r, keyOf r.2 rightKey = keyOf l.2 leftKey) right)
        as Hin by (rewrite Hms; apply list_elem_of_here).
      apply list_elem_of_filter in Hin as [Hk Hr0].
      by destruct (Hnone r0 Hr0).
Qed.

Lemma pairing_nonempty left right leftKey rightKey l :
  l ∈ left → ∃ e, (l, e) ∈ pairing left right leftKey rightKey.
Proof.
  intros Hl.
  destruct (filter (λ r, keyOf r.2 rightKey = keyOf l.2 leftKey) right)
    as [|r0 ms] eqn:Hms.
  - exists None. apply pairing_elem_None. split; [done|].
    intros r Hr Hk.
    eapply (filter_nil_not_elem_of _ _ r); [exact Hms|exact Hk|done].
  - exists (Some r0).
    assert (r0 ∈ filter (λ r, keyOf r.2 rightKey = keyOf l.2 leftKey) right)
      as Hin by (rewrite Hms; apply list_elem_of_here).
    apply list_elem_of_filter in Hin as [Hk Hr0].
    by apply pairing_elem_Some.
Qed.

Lemma pairing_NoDup left right leftKey rightKey :
  NoDup left → NoDup right → NoDup (pairing left right leftKey rightKey).
Proof.
  intros Hleft Hright. unfold pairing. apply NoDup_bind; [| |done].
  - intros l1 l2 [l e] _ _ H1 H2.
    apply list_elem_of_fmap in H1 as (? & [= -> _] & _).
    by apply list_elem_of_fmap in H2 as (? & [= -> _] & _).
  - intros l _. apply NoDup_fmap_2; [by intros ?? [=]|].
    destruct (filter _ right) as [|r0 ms] eqn:Hms.
    + apply NoDup_singleton.
    + rewrite <- Hms. apply NoDup_fmap_2; [by intros ?? [=]|].
      by apply NoDup_filter.
Qed.

Lemma idealBoth_calls left right leftKey rightKey select :
  idealBoth left right leftKey rightKey select =
  filter (λ v, truthy v)
    ((λ call, select call.1 call.2) <$>
       expectedOuterCalls left right leftKey rightKey).
Proof.
  unfold idealBoth, expectedOuterCalls.
  rewrite fmap_app, filter_app, !idealIterate_calls.
  f_equal.
  - by rewrite <- list_fmap_compose.
  - rewrite <- list_fmap_compose.
    apply (filter_truthy_guard
      (λ call : record * option record, isNull call.2)
      (λ call, select call.2 (Some call.1))).
Qed.

Lemma expectedCalls_tagged left right leftKey rightKey :
  expectedCalls left right leftKey rightKey =
  eraseCall <$> pairing (tagged left) (tagged right) leftKey rightKey.
Proof. by rewrite pairing_erase, !tagged_snd. Qed.

Lemma outerOrigins_erase left right leftKey rightKey :
  erase <$> outerOrigins left right leftKey rightKey =
  expectedOuterCalls left right leftKey rightKey.
Proof.
  unfold outerOrigins, expectedOuterCalls.
  rewrite fmap_app, !expectedCalls_tagged. f_equal.
  - rewrite <- !list_fmap_compose. by apply list_fmap_ext.
  - rewrite filter_fmap_list, <- !list_fmap_compose.
    rewrite (list_filter_iff
      (λ p : (nat * record) * option (nat * record),
         Is_true (isNull (eraseCall p).2))
      (λ p, p.2 = None)).
    + by apply list_fmap_ext.
    + intros [r [l|]]; simpl; naive_solver.
Qed.

Lemma idealOuterJoin_rows left right leftKey rightKey merge :
  idealOuterJoin left right leftKey rightKey merge =
  filter (λ v, truthy v)
    (rowOf merge <$> outerOrigins left right leftKey rightKey).
Proof.
  unfold idealOuterJoin.
  rewrite idealBoth_calls, <- outerOrigins_erase.
  by rewrite <- list_fmap_compose.
Qed.

Lemma outerOrigins_elem_both left right leftKey rightKey i l j r :
  (Some (i, l), Some (j, r)) ∈ outerOrigins left right leftKey rightKey ↔
  left !! i = Some l ∧ right !! j = Some r ∧
  keyOf l leftKey = keyOf r rightKey.
Proof.
  unfold outerOrigins. rewrite elem_of_app, !list_elem_of_fmap. split.
  - intros [([tl e] & [= <- <-] & Hin)|([tr e] & [= He _] & Hin)].
    + apply pairing_elem_Some in Hin as (Hl & Hr & Hk).
      by rewrite <- !tagged_elem.
    + apply list_elem_of_filter in Hin as [Hnone _]. simpl in *. congruence.
  - intros (Hl & Hr & Hk). left. exists ((i, l), Some (j, r)).
    split; [done|]. apply pairing_elem_Some. by rewrite !tagged_elem.
Qed.

Lemma outerOrigins_elem_right left right leftKey rightKey j r :
  (None, Some (j, r)) ∈ outerOrigins left right leftKey rightKey ↔
  right !! j = Some r ∧
  ∀ l, l ∈ left → keyOf l leftKey ≠ keyOf r rightKey.
Proof.
  unfold outerOrigins. rewrite elem_of_app, !list_elem_of_fmap. split.
  - intros [([tl e] & [=] & _)|([tr e] & [= He <-] & Hin)].
    simpl in He. subst e.
    apply list_elem_of_filter in Hin as [_ Hin].
    apply pairing_elem_None in Hin as [Hr Hnone].
    split; [by apply tagged_elem|].
    intros l (i & Hl)%elem_snd_tagged. by apply (Hnone (i, l)).
  - intros [Hr Hnone]. right. exists ((j, r), None). split; [done|].
    apply list_elem_of_filter. split; [done|].
    apply pairing_elem_None. split; [by apply tagged_elem|].
    intros tl Hl. apply Hnone. by apply tagged_elem_snd.
Qed.

Lemma outerOrigins_covers_left left right leftKey rightKey i l :
  left !! i = Some l →
  ∃ o, (Some (i, l), o) ∈ outerOrigins left right leftKey rightKey.
Proof.
  intros Hl%tagged_elem.
  destruct (pairing_nonempty _ (tagged right) leftKey rightKey _ Hl)
    as [e He].
  exists e. unfold outerOrigins. rewrite elem_of_app. left.
  by apply (list_elem_of_fmap_2 (λ p, (Some p.1, p.2)) _ ((i, l), e)).
Qed.

Lemma outerOrigins_covers_right left right leftKey rightKey j r :
  right !! j = Some r →
  ∃ o, (o, Some (j, r)) ∈ outerOrigins left right leftKey rightKey.
Proof.
  intros Hr.
  destruct (filter (λ l, keyOf l leftKey = keyOf r rightKey) left)
    as [|l ls] eqn:Hls.
  - exists None. apply outerOrigins_elem_right. split; [done|].
    intros l Hl Hk.
    eapply (filter_nil_not_elem_of _ _ l); [exact Hls|exact Hk|done].
  - assert (l ∈ filter (λ l, keyOf l leftKey = keyOf r rightKey) left)
      as Hin by (rewrite Hls; apply list_elem_of_here).
    apply list_elem_of_filter in Hin as [Hk Hl].
    apply list_elem_of_lookup in Hl as [i Hl].
    exists (Some (i, l)). by apply outerOrigins_elem_both.
Qed.

Lemma outerOrigins_NoDup left right leftKey rightKey :
  NoDup (outerOrigins left right leftKey rightKey).
Proof.
  unfold outerOrigins. apply NoDup_app. split; [|split].
  - apply NoDup_fmap_2_strong.
    + by intros [l1 e1] [l2 e2] _ _ [= -> ->].
    + apply pairing_NoDup; apply tagged_NoDup.
  - intros o ([l e] & -> & _)%list_elem_of_fmap
             ([r e'] & [= He _] & Hin)%list_elem_of_fmap.
    apply list_elem_of_filter in Hin as [Hnone _]. simpl in *. congruence.
  - apply NoDup_fmap_2_strong.
    + by intros [r1 e1] [r2 e2] _ _ [= -> ->].
    + apply NoDup_filter, pairing_NoDup; apply tagged_NoDup.
Qed.

(** * Properties of the list comprehensions *)

Lemma idealInnerJoin_length_lists
    (left right : list record) (leftKey rightKey : string) :
  length (idealInnerJoin left right leftKey rightKey None) =
    sum_list_with
      (λ row, matchCount right rightKey (keyOf row leftKey)) left ∧
  idealInnerJoin left right leftKey rightKey None =
    left ≫= (λ row, (λ r, AValue (VObj (unionMerge row r))) <$>
                       matches right rightKey (keyOf row leftKey)).
Proof.
  split.
  - induction left as [|row left IH]; [done|].
    change (row :: left) with ([row] ++ left) at 1.
    rewrite idealInnerJoin_app, length_app, IH.
    by rewrite idealInnerJoin_one_default, length_fmap.
  - induction left as [|row left IH]; [done|].
    change (row :: left) with ([row] ++ left) at 1.
    by rewrite idealInnerJoin_app, idealInnerJoin_one_default, bind_cons, IH.
Qed.

Lemma idealLeftJoin_length_lists
    (left right : list record) (leftKey rightKey : string) :
  length (idealLeftJoin left right leftKey rightKey None) =
    sum_list_with
      (λ row, matchCount right rightKey (keyOf row leftKey) `max` 1) left ∧
  (length left ≤ length (idealLeftJoin left right leftKey rightKey None))%nat ∧
  ∀ before row after,
    idealLeftJoin (before ++ row :: after) right leftKey rightKey None =
    idealLeftJoin before right leftKey rightKey None ++
    match matches right rightKey (keyOf row leftKey) with
    | [] => [AValue (VObj (unionMerge row ∅))]
    | ms => (λ r, AValue (VObj (unionMerge row r))) <$> ms
    end ++
    idealLeftJoin after right leftKey rightKey None.
Proof.
  assert (length (idealLeftJoin left right leftKey rightKey None) =
    sum_list_with
      (λ row, matchCount right rightKey (keyOf row leftKey) `max` 1) left)
    as Hlen.
  { induction left as [|row left IH]; [done|].
    change (row :: left) with ([row] ++ left) at 1.
    rewrite idealLeftJoin_app, length_app, IH.
    rewrite idealLeftJoin_one_default.
    cbn [sum_list_with]. f_equal. unfold matchCount.
    destruct (matches right rightKey (keyOf row leftKey)) as [|r ms]; [done|].
    rewrite length_fmap. simpl. lia. }
  split; [done|]. split.
  - rewrite Hlen. clear Hlen.
    induction left as [|row left IH]; simpl; lia.
  - intros before row after.
    change (row :: after) with ([row] ++ after).
    by rewrite !idealLeftJoin_app, idealLeftJoin_one_default.
Qed.

Lemma idealInnerJoin_duplicate_keys_lists :
  (∀ (before after right : list record) (row : record)
     (leftKey rightKey : string),
     idealInnerJoin (before ++ row :: after) right leftKey rightKey None =
     idealInnerJoin before right leftKey rightKey None ++
     ((λ r, AValue (VObj (unionMerge row r))) <$>
        matches right rightKey (keyOf row leftKey)) ++
     idealInnerJoin after right leftKey rightKey None) ∧
  (∀ (right : list record) (row : record) (leftKey rightKey : string),
     length (idealInnerJoin [row] right leftKey rightKey None) =
     matchCount right rightKey (keyOf row leftKey)) ∧
  idealInnerJoin [ {[ "id" := num 1 ]} ]
            [ {[ "id" := num 1; "x" := VStr "a" ]};
              {[ "id" := num 1; "x" := VStr "b" ]} ]
            "id" "id" None
  = [ AValue (VObj {[ "id" := num 1; "x" := VStr "a" ]});
      AValue (VObj {[ "id" := num 1; "x" := VStr "b" ]}) ].
Proof.
  split; [|split].
  - intros before after right row leftKey rightKey.
    change (row :: after) with ([row] ++ after).
    by rewrite !idealInnerJoin_app, idealInnerJoin_one_default.
  - intros right row leftKey rightKey.
    by rewrite idealInnerJoin_one_default, length_fmap.
  - by vm_compute.
Qed.

Lemma idealLeftExcludingJoin_unmatched_rows_of_leftJoin_lists
    (left right : list record) (leftKey rightKey : string)
    (merge : option (record → record → answer)) :
  idealLeftJoin left right leftKey rightKey merge =
    left ≫= (λ row, idealLeftJoin [row] right leftKey rightKey merge) ∧
  idealLeftExcludingJoin left right leftKey rightKey merge =
    filter (λ row, matchCount right rightKey (keyOf row leftKey) = 0) left
      ≫= (λ row, idealLeftJoin [row] right leftKey rightKey merge) ∧
  idealLeftExcludingJoin left right leftKey rightKey merge =
    filter (λ row, matchCount right rightKey (keyOf row leftKey) = 0) left
      ≫= (λ row, filter (λ v, truthy v) [idealMerge merge row ∅]) ∧
  sublist (idealLeftExcludingJoin left right leftKey rightKey merge)
          (idealLeftJoin left right leftKey rightKey merge).
Proof.
  assert (idealLeftJoin left right leftKey rightKey merge =
    left ≫= (λ row, idealLeftJoin [row] right leftKey rightKey merge)) as HJ.
  { induction left as [|row left IH]; [done|].
    change (row :: left) with ([row] ++ left) at 1.
    by rewrite idealLeftJoin_app, bind_cons, <- IH. }
  assert (idealLeftExcludingJoin left right leftKey rightKey merge =
    left ≫= (λ row,
      if decide (matchCount right rightKey (keyOf row leftKey) = 0)
      then idealLeftJoin [row] right leftKey rightKey merge else [])) as HE.
  { clear HJ. induction left as [|row left IH]; [done|].
    change (row :: left) with ([row] ++ left) at 1.
    rewrite idealLeftExcludingJoin_app, bind_cons, <- IH. f_equal.
    rewrite idealLeftExcludingJoin_one, idealLeftJoin_one. unfold matchCount.
    by destruct (matches right rightKey (keyOf row leftKey)). }
  split; [done|]. split; [|split].
  - by rewrite bind_filter_list.
  - rewrite bind_filter_list, HE. apply list_bind_ext; [|done].
    intros row. rewrite idealLeftJoin_one. unfold matchCount.
    by destruct (matches right rightKey (keyOf row leftKey)).
  - rewrite HE, HJ. clear HJ HE.
    induction left as [|row left IH]; [done|].
    rewrite !bind_cons. apply sublist_app; [|done].
    destruct (decide _); [done|]. apply sublist_nil_l.
Qed.

Lemma idealOuterJoin_leftJoin_rightExcludingJoin_lists
    (left right : list record) (leftKey rightKey : string)
    (merge : option (record → record → answer)) :
  idealOuterJoin left right leftKey rightKey merge =
  idealLeftJoin left right leftKey rightKey merge ++
  idealRightExcludingJoin left right leftKey rightKey merge.
Proof.
  unfold idealOuterJoin, idealBoth, idealLeftJoin, idealRightExcludingJoin.
  f_equal. apply idealIterate_ext. by intros row [entry|].
Qed.

Lemma idealLeftExcludingJoin_default left right leftKey rightKey :
  idealLeftExcludingJoin left right leftKey rightKey None =
  (λ r, AValue (VObj r)) <$> filter (unmatched right leftKey rightKey) left.
Proof.
  rewrite idealLeftExcludingJoin_rows, fmap_filter_bind.
  apply list_bind_ext; [|done].
  intros row. unfold decide, unmatched_dec, unmatched, matchCount.
  destruct (matches right rightKey (keyOf row leftKey)) as [|r ms]; [|done].
  simpl. by rewrite unionMerge_empty_r.
Qed.

Lemma idealRightExcludingJoin_default left right leftKey rightKey :
  idealRightExcludingJoin left right leftKey rightKey None =
  (λ r, AValue (VObj r)) <$> filter (unmatched left rightKey leftKey) right.
Proof.
  rewrite idealRightExcludingJoin_swap, idealLeftExcludingJoin_rows, fmap_filter_bind.
  apply list_bind_ext; [|done].
  intros row. unfold decide, unmatched_dec, unmatched, matchCount.
  destruct (matches left leftKey (keyOf row rightKey)) as [|l ms]; [|done].
  simpl. by rewrite unionMerge_empty_l.
Qed.

Lemma idealRightJoin_rows_default_lists
    (left right : list record) (leftKey rightKey : string) :
  idealRightJoin left right leftKey rightKey None =
    right ≫= (λ r,
      match matches left leftKey (keyOf r rightKey) with
      | [] => [AValue (VObj r)]
      | ms => (λ l, AValue (VObj (unionMerge l r))) <$> ms
      end) ∧
  length (idealRightJoin left right leftKey rightKey None) =
    sum_list_with
      (λ r, matchCount left leftKey (keyOf r rightKey) `max` 1) right ∧
  (length right ≤ length (idealRightJoin left right leftKey rightKey None))%nat.
Proof.
  assert (idealRightJoin left right leftKey rightKey None =
    right ≫= (λ r,
      match matches left leftKey (keyOf r rightKey) with
      | [] => [AValue (VObj r)]
      | ms => (λ l, AValue (VObj (unionMerge l r))) <$> ms
      end)) as Hrows.
  { rewrite idealRightJoin_swap, idealLeftJoin_rows. apply list_bind_ext; [|done].
    intros r.
    destruct (matches left leftKey (keyOf r rightKey)) as [|l ms].
    - simpl. by rewrite unionMerge_empty_l.
    - by apply (filter_truthy_all _ (l :: ms)). }
  assert (length (idealRightJoin left right leftKey rightKey None) =
    sum_list_with
      (λ r, matchCount left leftKey (keyOf r rightKey) `max` 1) right)
    as Hlen.
  { rewrite Hrows, length_bind_sum. apply sum_list_with_pointwise.
    intros r. unfold matchCount.
    destruct (matches left leftKey (keyOf r rightKey)) as [|l ms]; [done|].
    rewrite length_fmap. simpl. lia. }
  split; [done|]. split; [done|].
  rewrite Hlen. apply sum_list_with_ge_length. intros r. lia.
Qed.

Lemma idealOuterExcludingJoin_leftExcluding_rightExcluding_lists
    (left right : list record) (leftKey rightKey : string)
    (merge : option (record → record → answer)) :
  idealOuterExcludingJoin left right leftKey rightKey merge =
  idealLeftExcludingJoin left right leftKey rightKey merge ++
  idealRightExcludingJoin left right leftKey rightKey merge.
Proof.
  rewrite idealOuterExcludingJoin_two_passes. by rewrite idealRightExcludingJoin_swap.
Qed.

Lemma idealLeftJoin_is_inner_and_excluding_lists
    (left right : list record) (leftKey rightKey : string)
    (merge : option (record → record → answer)) :
  idealLeftJoin left right leftKey rightKey merge ≡ₚ
    idealInnerJoin left right leftKey rightKey merge ++
    idealLeftExcludingJoin left right leftKey rightKey merge ∧
  sublist (idealInnerJoin left right leftKey rightKey merge)
          (idealLeftJoin left right leftKey rightKey merge) ∧
  length (idealLeftJoin left right leftKey rightKey merge) =
    length (idealInnerJoin left right leftKey rightKey merge) +
    length (idealLeftExcludingJoin left right leftKey rightKey merge).
Proof.
  split; [apply idealLeftJoin_Permutation|]. split.
  - rewrite idealLeftJoin_block, idealInnerJoin_rows.
    apply sublist_bind_pointwise. intros row. apply sublist_inserts_r.
    done.
  - by rewrite idealLeftJoin_Permutation, length_app.
Qed.

Lemma idealInnerJoin_exchange_lists
    (left right : list record) (leftKey rightKey : string)
    (merge : record → record → answer) :
  idealInnerJoin left right leftKey rightKey (Some merge) ≡ₚ
  idealInnerJoin right left rightKey leftKey (Some (λ r l, merge l r)).
Proof. apply (idealInnerJoin_swap_Permutation _ _ _ _ (Some merge)). Qed.

Lemma idealOuterJoin_is_inner_and_excluding_lists
    (left right : list record) (leftKey rightKey : string)
    (merge : option (record → record → answer)) :
  idealOuterJoin left right leftKey rightKey merge ≡ₚ
    idealInnerJoin left right leftKey rightKey merge ++
    idealOuterExcludingJoin left right leftKey rightKey merge ∧
  length (idealOuterJoin left right leftKey rightKey merge) =
    length (idealInnerJoin left right leftKey rightKey merge) +
    length (idealLeftExcludingJoin left right leftKey rightKey merge) +
    length (idealRightExcludingJoin left right leftKey rightKey merge).
Proof.
  assert (idealOuterJoin left right leftKey rightKey merge ≡ₚ
    idealInnerJoin left right leftKey rightKey merge ++
    idealOuterExcludingJoin left right leftKey rightKey merge) as Hperm.
  { rewrite idealOuterJoin_two_passes, idealOuterExcludingJoin_two_passes.
    by rewrite idealLeftJoin_Permutation, <- app_assoc. }
  split; [done|].
  rewrite Hperm, idealOuterExcludingJoin_two_passes, idealRightExcludingJoin_swap.
  rewrite !length_app. lia.
Qed.

Lemma joins_with_empty_right_lists
    (left : list record) (leftKey rightKey : string)
    (merge : option (record → record → answer)) :
  let alone :=
    filter (λ v, truthy v) ((λ l, idealMerge merge l ∅) <$> left) in
  idealInnerJoin left [] leftKey rightKey merge = [] ∧
  idealRightJoin left [] leftKey rightKey merge = [] ∧
  idealRightExcludingJoin left [] leftKey rightKey merge = [] ∧
  idealLeftJoin left [] leftKey rightKey merge = alone ∧
  idealLeftExcludingJoin left [] leftKey rightKey merge = alone ∧
  idealOuterJoin left [] leftKey rightKey merge = alone ∧
  idealOuterExcludingJoin left [] leftKey rightKey merge = alone ∧
  idealLeftJoin left [] leftKey rightKey None = (λ r, AValue (VObj r)) <$> left.
Proof.
  intros alone. split_and!.
  - apply idealInnerJoin_empty_right.
  - reflexivity.
  - reflexivity.
  - apply idealLeftJoin_empty_right.
  - apply idealLeftExcludingJoin_empty_right.
  - rewrite idealOuterJoin_two_passes, idealLeftJoin_empty_right. apply app_nil_r.
  - rewrite idealOuterExcludingJoin_two_passes, idealLeftExcludingJoin_empty_right.
    apply app_nil_r.
  - rewrite idealLeftJoin_empty_right.
    rewrite filter_truthy_all by done.
    apply list_fmap_ext. intros _ l _. simpl.
    by rewrite unionMerge_empty_r.
Qed.

Lemma excludingJoins_return_unmatched_records_lists
    (left right : list record) (leftKey rightKey : string) :
  idealLeftExcludingJoin left right leftKey rightKey None =
    (λ r, AValue (VObj r)) <$> filter (unmatched right leftKey rightKey) left ∧
  idealRightExcludingJoin left right leftKey rightKey None =
    (λ r, AValue (VObj r)) <$> filter (unmatched left rightKey leftKey) right ∧
  idealOuterExcludingJoin left right leftKey rightKey None =
    (λ r, AValue (VObj r)) <$> (filter (unmatched right leftKey rightKey) left ++
              filter (unmatched left rightKey leftKey) right).
Proof.
  split; [apply idealLeftExcludingJoin_default|].
  split; [apply idealRightExcludingJoin_default|].
  rewrite idealOuterExcludingJoin_two_passes, <- idealRightExcludingJoin_swap.
  by rewrite idealLeftExcludingJoin_default, idealRightExcludingJoin_default, fmap_app.
Qed.

Lemma idealInnerJoin_rows_are_matching_pairs_lists
    (left right : list record) (leftKey rightKey : string)
    (merge : option (record → record → answer)) (v : answer) :
  v ∈ idealInnerJoin left right leftKey rightKey merge ↔
  truthy v = true ∧
  ∃ l r, l ∈ left ∧ r ∈ right ∧
         keyOf l leftKey = keyOf r rightKey ∧ v = idealMerge merge l r.
Proof.
  rewrite idealInnerJoin_rows, list_elem_of_bind. split.
  - intros (l & Hv & Hl).
    apply list_elem_of_filter in Hv as [Htrue Hv].
    apply list_elem_of_fmap in Hv as (r & -> & Hr).
    apply matches_elem in Hr as [Hk Hr].
    split; [by apply Is_true_true|]. by exists l, r.
  - intros (Htrue & l & r & Hl & Hr & Hk & ->).
    exists l. split; [|done].
    apply list_elem_of_filter. split; [by apply Is_true_true|].
    apply list_elem_of_fmap_2. by apply matches_elem.
Qed.

Lemma unique_right_keys_keep_left_length_lists
    (left right : list record) (leftKey rightKey : string) :
  NoDup ((λ r, keyOf r rightKey) <$> right) →
  length (idealLeftJoin left right leftKey rightKey None) = length left ∧
  (length (idealInnerJoin left right leftKey rightKey None) ≤ length left)%nat.
Proof.
  intros Hnodup. split.
  - rewrite idealLeftJoin_length_default. apply sum_list_with_const_one.
    intros row.
    pose proof (matchCount_unique right rightKey (keyOf row leftKey) Hnodup).
    lia.
  - rewrite idealInnerJoin_length_default. apply sum_list_with_le_length.
    intros row. by apply matchCount_unique.
Qed.


Lemma idealOuterJoin_length_default_lists
    (left right : list record) (leftKey rightKey : string) :
  length (idealOuterJoin left right leftKey rightKey None) =
    sum_list_with
      (λ row, matchCount right rightKey (keyOf row leftKey) `max` 1) left +
    length (filter (unmatched left rightKey leftKey) right) ∧
  (length left ≤ length (idealOuterJoin left right leftKey rightKey None))%nat ∧
  (length right ≤ length (idealOuterJoin left right leftKey rightKey None))%nat.
Proof.
  assert (length (idealOuterJoin left right leftKey rightKey None) =
    length (idealLeftJoin left right leftKey rightKey None) +
    length (idealRightExcludingJoin left right leftKey rightKey None)) as Hlen.
  { by rewrite idealOuterJoin_two_passes, length_app, idealRightExcludingJoin_swap. }
  split_and!.
  - rewrite Hlen, idealLeftJoin_length_default, idealRightExcludingJoin_default.
    by rewrite length_fmap.
  - rewrite Hlen, idealLeftJoin_length_default.
    etrans; [apply (sum_list_with_ge_length
      (λ row, matchCount right rightKey (keyOf row leftKey) `max` 1))|lia].
    intros row. lia.
  - rewrite Hlen, idealLeftJoin_Permutation, length_app.
    trans (length (idealRightJoin left right leftKey rightKey None)).
    + apply idealRightJoin_length_ge.
    + rewrite idealRightJoin_Permutation, length_app. lia.
Qed.

Lemma idealLeftJoin_is_innerJoin_when_all_match_lists
    (left right : list record) (leftKey rightKey : string)
    (merge : option (record → record → answer)) :
  (∀ l, l ∈ left → ∃ r, r ∈ right ∧ keyOf r rightKey = keyOf l leftKey) →
  idealLeftJoin left right leftKey rightKey merge =
    idealInnerJoin left right leftKey rightKey merge ∧
  idealLeftExcludingJoin left right leftKey rightKey merge = [].
Proof.
  intros Hall.
  assert (Forall (λ l, ∃ r ms,
    matches right rightKey (keyOf l leftKey) = r :: ms) left) as Hms.
  { apply Forall_forall. intros l Hl.
    destruct (Hall l Hl) as (r & Hr & Hk).
    assert (r ∈ matches right rightKey (keyOf l leftKey)) as Hin
      by by apply matches_elem.
    destruct (matches right rightKey (keyOf l leftKey)) as [|r' ms].
    - by apply elem_of_nil in Hin.
    - by exists r', ms. }
  split.
  - rewrite idealLeftJoin_rows, idealInnerJoin_rows. apply Forall_bind_ext.
    eapply Forall_impl; [exact Hms|].
    intros l (r & ms & ->). done.
  - rewrite idealLeftExcludingJoin_rows.
    rewrite (Forall_bind_ext _ (λ _, []) left); [apply bind_const_nil|].
    eapply Forall_impl; [exact Hms|].
    intros l (r & ms & ->). done.
Qed.

Lemma falsy_merge_empties_every_join_lists
    (left right : list record) (leftKey rightKey : string)
    (merge : record → record → answer) :
  (∀ l r, truthy (merge l r) = false) →
  idealInnerJoin left right leftKey rightKey (Some merge) = [] ∧
  idealOuterJoin left right leftKey rightKey (Some merge) = [] ∧
  idealLeftJoin left right leftKey rightKey (Some merge) = [] ∧
  idealRightJoin left right leftKey rightKey (Some merge) = [] ∧
  idealLeftExcludingJoin left right leftKey rightKey (Some merge) = [] ∧
  idealRightExcludingJoin left right leftKey rightKey (Some merge) = [] ∧
  idealOuterExcludingJoin left right leftKey rightKey (Some merge) = [].
Proof.
  intros Hfalsy.
  unfold idealInnerJoin, idealOuterJoin, idealLeftJoin, idealRightJoin, idealLeftExcludingJoin,
    idealRightExcludingJoin, idealOuterExcludingJoin, idealBoth.
  split_and!; rewrite ?idealIterate_all_falsy; try done.
  all: intros row entry; simpl;
    repeat match goal with
    | |- context [match ?x with _ => _ end] => destruct x; simpl
    end; try done; apply Hfalsy.
Qed.

Lemma idealLeftJoin_rows_default_lists left right leftKey rightKey :
  idealLeftJoin left right leftKey rightKey None =
  left ≫= (λ row,
    match matches right rightKey (keyOf row leftKey) with
    | [] => [AValue (VObj (unionMerge row ∅))]
    | ms => (λ r, AValue (VObj (unionMerge row r))) <$> ms
    end).
Proof.
  induction left as [|row left IH]; [done|].
  change (row :: left) with ([row] ++ left) at 1.
  by rewrite idealLeftJoin_app, idealLeftJoin_one_default, bind_cons, IH.
Qed.

Lemma keyOf_missing (row : record) (key : string) :
  inheritedName key = false → row !! key = None →
  keyOf row key = "undefined".
Proof.
  unfold inheritedName, keyOf, getField. intros Hname ->.
  apply orb_false_iff in Hname as [-> ->]. done.
Qed.

(** * The code on ordinary input *)

Lemma indexGet_fresh index elements P :
  indexGet ∅ elements P = Absent →
  indexGet index elements P =
  match index !! P with Some rows => Group rows | None => Absent end.
Proof.
  unfold indexGet. rewrite lookup_empty. intros H.
  destruct (index !! P); [done|].
  by destruct (String.eqb P "length").
Qed.

Lemma ordinaryKey_key elements row key :
  ordinaryKey elements row key = true →
  toPropertyKey (getField row key) = Return (keyOf row key) ∧
  indexGet ∅ elements (keyOf row key) = Absent.
Proof.
  unfold ordinaryKey, keyOf.
  destruct (toPropertyKey (getField row key)) as [P|]; [|done].
  by destruct (indexGet ∅ elements P).
Qed.

Lemma ordinaryRows_cons elements row rows key :
  ordinaryRows elements (row :: rows) key = true ↔
  ordinaryKey elements row key = true ∧ ordinaryRows elements rows key = true.
Proof. unfold ordinaryRows. simpl. apply andb_true_iff. Qed.

Lemma matches_cons row rest rightKey k :
  matches (row :: rest) rightKey k =
  if decide (keyOf row rightKey = k)
  then row :: matches rest rightKey k else matches rest rightKey k.
Proof. unfold matches. by rewrite filter_cons. Qed.

(** On ordinary rows the first loop returns, leaves [Array.prototype] alone
    and appends each row to the group of its key. *)
Lemma buildIndex_ordinary elements right rightKey index :
  ordinaryRows elements right rightKey = true →
  ∃ index',
    buildIndex right rightKey index elements = (Return index', elements) ∧
    ∀ k, index' !! k =
      match matches right rightKey k with
      | [] => index !! k
      | ms => Some (default [] (index !! k) ++ ms)
      end.
Proof.
  revert index. induction right as [|row rest IH]; intros index Hord.
  { exists index. split; [done|]. intros k. done. }
  apply ordinaryRows_cons in Hord as [Hrow Hrest].
  apply ordinaryKey_key in Hrow as [Hkey Hfresh].
  set (P := keyOf row rightKey) in *.
  destruct (IH (<[P := default [] (index !! P) ++ [row]]> index) Hrest)
    as (index' & Hbuild & Hlook).
  exists index'. split.
  - simpl. rewrite Hkey. unfold indexPush.
    rewrite (indexGet_fresh _ _ _ Hfresh).
    destruct (index !! P) as [rows|] eqn:HP; simpl in *; exact Hbuild.
  - intros k. rewrite Hlook, matches_cons. fold P.
    destruct (decide (P = k)) as [<-|Hne].
    + rewrite lookup_insert_eq. simpl.
      destruct (matches rest rightKey P) as [|m ms]; [done|].
      by rewrite <- app_assoc.
    + by rewrite lookup_insert_ne.
Qed.

Lemma entriesOf_ordinary elements right rightKey index P :
  (∀ k, index !! k =
     match matches right rightKey k with [] => None | ms => Some ms end) →
  indexGet ∅ elements P = Absent →
  entriesOf index elements P = Return (candidates right rightKey P).
Proof.
  intros Hindex Hfresh. unfold entriesOf, candidates.
  rewrite (indexGet_fresh _ _ _ Hfresh), Hindex.
  by destruct (matches right rightKey P).
Qed.

Lemma forEachEntry_total select sel row entries result :
  (∀ e, e ∈ entries → select row e = Return (sel row e)) →
  forEachEntry select row entries result =
  Return (result ++ filter (λ v, truthy v) (sel row <$> entries)).
Proof.
  revert result. induction entries as [|e es IH]; intros result Hsel.
  { simpl. by rewrite app_nil_r. }
  simpl. rewrite (Hsel e) by left. simpl.
  rewrite IH by (intros; apply Hsel; by right).
  rewrite filter_cons.
  destruct (truthy (sel row e)) eqn:Ht.
  - rewrite (decide_True (P := Is_true true)) by done.
    by rewrite <- app_assoc.
  - by rewrite (decide_False (P := Is_true false)) by (by intros ?).
Qed.

Lemma idealIterate_cons row rest right leftKey rightKey select :
  idealIterate (row :: rest) right leftKey rightKey select =
  filter (λ v, truthy v)
    (select row <$> candidates right rightKey (keyOf row leftKey)) ++
  idealIterate rest right leftKey rightKey select.
Proof. unfold idealIterate. by rewrite bind_cons. Qed.

Lemma iterateLeft_ordinary select sel elements left right leftKey rightKey
    index result :
  (∀ k, index !! k =
     match matches right rightKey k with [] => None | ms => Some ms end) →
  ordinaryRows elements left leftKey = true →
  (∀ row e, row ∈ left → e ∈ candidates right rightKey (keyOf row leftKey) →
     select row e = Return (sel row e)) →
  iterateLeft select index elements left leftKey result =
  Return (result ++ idealIterate left right leftKey rightKey sel).
Proof.
  intros Hindex. revert result.
  induction left as [|row rest IH]; intros result Hord Hsel.
  { simpl. by rewrite app_nil_r. }
  apply ordinaryRows_cons in Hord as [Hrow Hrest].
  apply ordinaryKey_key in Hrow as [Hkey Hfresh].
  rewrite idealIterate_cons.
  simpl. rewrite Hkey. simpl.
  rewrite (entriesOf_ordinary _ _ _ _ _ Hindex Hfresh). simpl.
  rewrite (forEachEntry_total _ sel)
    by (intros e He; apply Hsel; [by left|done]).
  simpl. rewrite IH; [|done|intros; apply Hsel; [by right|done]].
  by rewrite <- app_assoc.
Qed.

(** On ordinary rows the iterator returns the rows of the list comprehension
    and leaves [Array.prototype] as it found it. *)
Lemma leftIterate_ordinary select sel elements left right leftKey rightKey :
  ordinaryRows elements left leftKey = true →
  ordinaryRows elements right rightKey = true →
  (∀ row e, row ∈ left → e ∈ candidates right rightKey (keyOf row leftKey) →
     select row e = Return (sel row e)) →
  leftIterate left right leftKey rightKey select elements =
  (Return (idealIterate left right leftKey rightKey sel), elements).
Proof.
  intros Hleft Hright Hsel. unfold leftIterate.
  destruct (buildIndex_ordinary elements right rightKey ∅ Hright)
    as (index & -> & Hindex).
  by rewrite (iterateLeft_ordinary select sel _ _ right _ rightKey).
Qed.

Lemma candidates_elem right rightKey k e :
  e ∈ candidates right rightKey k →
  e = None ∨ ∃ r, e = Some r ∧ r ∈ right.
Proof.
  unfold candidates. intros He.
  destruct (matches right rightKey k) as [|m ms] eqn:Hm.
  { apply list_elem_of_singleton in He. by left. }
  right. apply list_elem_of_fmap in He as (r & -> & Hr).
  exists r. split; [done|]. rewrite <- Hm in Hr.
  unfold matches in Hr. by apply list_elem_of_filter in Hr as [_ ?].
Qed.

Lemma leftRightIterate_ordinary select sel elements left right
    leftKey rightKey :
  ordinaryRows elements left leftKey = true →
  ordinaryRows elements right rightKey = true →
  (∀ l e, l ∈ left → e = None ∨ (∃ r, e = Some r ∧ r ∈ right) →
     select (Some l) e = Return (sel (Some l) e)) →
  (∀ r, r ∈ right → select None (Some r) = Return (sel None (Some r))) →
  leftRightIterate left right leftKey rightKey select elements =
  (Return (idealBoth left right leftKey rightKey sel), elements).
Proof.
  intros Hleft Hright Hsel1 Hsel2. unfold leftRightIterate.
  rewrite (leftIterate_ordinary _ (λ left right, sel (Some left) right));
    [|done|done|].
  2:{ intros row e Hrow He. apply Hsel1; [done|].
      by apply candidates_elem in He. }
  rewrite (leftIterate_ordinary _
    (λ right left,
       if isNull left then sel left (Some right) else AValue VUndefined));
    [done|done|done|].
  intros row [l|] Hrow He; simpl; [done|]. by apply Hsel2.
Qed.

(** ** The default merge on plain records *)

Lemma copyOwn_plain (src own : record) :
  plainRecord src = true →
  copyOwn src (Draft ProtoObject own) = Return (Draft ProtoObject (src ∪ own)).
Proof.
  unfold plainRecord. rewrite andb_true_iff, !bool_decide_eq_true.
  intros [Hhas Hproto]. unfold copyOwn. rewrite Hhas. f_equal.
  revert Hproto. clear Hhas.
  apply (map_fold_weak_ind
    (λ rec src, src !! "__proto__" = None →
                rec = Draft ProtoObject (src ∪ own))).
  { intros _. by rewrite (left_id_L ∅ (∪)). }
  intros prop v src' rec Hnone IH Hproto.
  apply lookup_insert_None in Hproto as [Hproto Hne].
  rewrite IH by done. unfold assign. simpl.
  replace (String.eqb prop "__proto__") with false
    by (symmetry; apply String.eqb_neq; congruence).
  simpl. by rewrite insert_union_l.
Qed.

Lemma defaultMerge_plain (left right : record) :
  plainRecord left = true → plainRecord right = true →
  defaultMerge left right = Return (AValue (VObj (unionMerge left right))).
Proof.
  intros Hl Hr. unfold defaultMerge.
  rewrite (copyOwn_plain _ _ Hl). simpl.
  rewrite (copyOwn_plain _ _ Hr). simpl.
  unfold finish, unionMerge. simpl. by rewrite (right_id_L ∅ (∪)).
Qed.

Lemma mergeOr_plain merge (left right : record) :
  (merge = None → plainRecord left = true ∧ plainRecord right = true) →
  mergeOr merge left right = Return (idealMerge merge left right).
Proof.
  intros H. destruct merge as [merge|]; [done|].
  destruct H as [Hl Hr]; [done|]. by apply defaultMerge_plain.
Qed.

Lemma mergeable_elem merge rows row :
  mergeable merge rows = true → row ∈ rows →
  merge = None → plainRecord row = true.
Proof.
  intros Hm Hin ->. simpl in Hm. rewrite forallb_forall in Hm.
  apply Hm. by apply list_elem_of_In.
Qed.

Lemma ordinary_parts elements left right leftKey rightKey merge :
  ordinary elements left right leftKey rightKey merge = true →
  ordinaryRows elements left leftKey = true ∧
  ordinaryRows elements right rightKey = true ∧
  (∀ row, row ∈ left → merge = None → plainRecord row = true) ∧
  (∀ row, row ∈ right → merge = None → plainRecord row = true).
Proof.
  unfold ordinary. rewrite !andb_true_iff. intros [[Hl Hr] Hm].
  split_and!; [done|done|..]; intros row Hin;
    apply (mergeable_elem _ _ _ Hm); set_solver.
Qed.

(** * The joins on ordinary input are the list comprehensions *)

Lemma joins_ordinary elements left right leftKey rightKey merge :
  ordinary elements left right leftKey rightKey merge = true →
  innerJoin left right leftKey rightKey merge elements =
    (Return (idealInnerJoin left right leftKey rightKey merge), elements) ∧
  outerJoin left right leftKey rightKey merge elements =
    (Return (idealOuterJoin left right leftKey rightKey merge), elements) ∧
  leftJoin left right leftKey rightKey merge elements =
    (Return (idealLeftJoin left right leftKey rightKey merge), elements) ∧
  rightJoin left right leftKey rightKey merge elements =
    (Return (idealRightJoin left right leftKey rightKey merge), elements) ∧
  leftExcludingJoin left right leftKey rightKey merge elements =
    (Return (idealLeftExcludingJoin left right leftKey rightKey merge),
     elements) ∧
  rightExcludingJoin left right leftKey rightKey merge elements =
    (Return (idealRightExcludingJoin left right leftKey rightKey merge),
     elements) ∧
  outerExcludingJoin left right leftKey rightKey merge elements =
    (Return (idealOuterExcludingJoin left right leftKey rightKey merge),
     elements).
Proof.
  intros (Hleft & Hright & Hpl & Hpr)%ordinary_parts.
  assert (Hmerge : ∀ l r,
    (l = ∅ ∨ l ∈ left) → (r = ∅ ∨ r ∈ right) →
    mergeOr merge l r = Return (idealMerge merge l r)).
  { intros l r Hl Hr. apply mergeOr_plain. intros Hnone. split.
    - destruct Hl as [->|Hl]; [done|by apply Hpl].
    - destruct Hr as [->|Hr]; [done|by apply Hpr]. }
  split_and!.
  - unfold innerJoin, idealInnerJoin. apply leftIterate_ordinary; try done.
    intros l e Hl [->|(r & -> & Hr)]%candidates_elem; [done|].
    apply Hmerge; by right.
  - unfold outerJoin, idealOuterJoin.
    apply leftRightIterate_ordinary; try done.
    + intros l e Hl [->|(r & -> & Hr)]; apply Hmerge; auto.
    + intros r Hr. apply Hmerge; auto.
  - unfold leftJoin, idealLeftJoin. apply leftIterate_ordinary; try done.
    intros l e Hl [->|(r & -> & Hr)]%candidates_elem; apply Hmerge; auto.
  - unfold rightJoin, idealRightJoin. apply leftIterate_ordinary; try done.
    intros r e Hr [->|(l & -> & Hl)]%candidates_elem; apply Hmerge; auto.
  - unfold leftExcludingJoin, idealLeftExcludingJoin.
    apply leftIterate_ordinary; try done.
    intros l e Hl [->|(r & -> & Hr)]%candidates_elem; [|done].
    apply Hmerge; auto.
  - unfold rightExcludingJoin, idealRightExcludingJoin.
    apply leftIterate_ordinary; try done.
    intros r e Hr [->|(l & -> & Hl)]%candidates_elem; [|done].
    apply Hmerge; auto.
  - unfold outerExcludingJoin, idealOuterExcludingJoin.
    apply leftRightIterate_ordinary; try done.
    + intros l e Hl [->|(r & -> & Hr)]; [|done]. apply Hmerge; auto.
    + intros r Hr. apply Hmerge; auto.
Qed.

(** * The code on every input *)

(** ** What the rows of a returning call are *)

Lemma forEachEntry_returns (P : answer → Prop) select row entries result rows :
  (∀ e a, select row e = Return a → truthy a = true → P a) →
  Forall P result →
  forEachEntry select row entries result = Return rows →
  Forall P rows.
Proof.
  intros Hsel. revert result.
  induction entries as [|e es IH]; intros result Hres; simpl.
  { by intros [= <-]. }
  destruct (select row e) as [a|err] eqn:Ha; simpl; [|done].
  apply IH. destruct (truthy a) eqn:Ht; [|done].
  apply Forall_app. split; [done|]. apply Forall_singleton. eauto.
Qed.

Lemma iterateLeft_returns (P : answer → Prop) select index elements left
    leftKey result rows :
  (∀ row e a, select row e = Return a → truthy a = true → P a) →
  Forall P result →
  iterateLeft select index elements left leftKey result = Return rows →
  Forall P rows.
Proof.
  intros Hsel. revert result.
  induction left as [|row rest IH]; intros result Hres; simpl.
  { by intros [= <-]. }
  destruct (toPropertyKey (getField row leftKey)) as [key|]; simpl; [|done].
  destruct (entriesOf index elements key) as [entries|]; simpl; [|done].
  destruct (forEachEntry select row entries result) as [result'|] eqn:Hfor;
    simpl; [|done].
  apply IH.
  eapply forEachEntry_returns; [|exact Hres|exact Hfor].
  intros e a. apply Hsel.
Qed.

Lemma leftIterate_returns (P : answer → Prop) select elements left right
    leftKey rightKey :
  (∀ row e a, select row e = Return a → truthy a = true → P a) →
  whenReturns (Forall P)
    (leftIterate left right leftKey rightKey select elements).1.
Proof.
  intros Hsel. unfold leftIterate.
  destruct (buildIndex right rightKey ∅ elements) as [[index|] elements'];
    simpl; [|done].
  destruct (iterateLeft select index elements' left leftKey []) as [rows|]
    eqn:Hrows; simpl; [|done].
  eapply iterateLeft_returns; [exact Hsel| |exact Hrows]. done.
Qed.

Lemma leftRightIterate_returns (P : answer → Prop) select elements left right
    leftKey rightKey :
  (∀ l r a, select l r = Return a → truthy a = true → P a) →
  whenReturns (Forall P)
    (leftRightIterate left right leftKey rightKey select elements).1.
Proof.
  intros Hsel. unfold leftRightIterate.
  pose proof (leftIterate_returns P (λ left right, select (Some left) right)
    elements left right leftKey rightKey) as H1.
  destruct (leftIterate left right leftKey rightKey _ elements)
    as [[leftResult|] elements1]; simpl in *; [|done].
  pose proof (leftIterate_returns P
    (λ right left, if isNull left then select left (Some right)
                   else Return (AValue VUndefined))
    elements1 right left rightKey leftKey) as H2.
  destruct (leftIterate right left rightKey leftKey _ elements1)
    as [[rightResult|] elements2]; simpl in *; [|done].
  apply Forall_app. split.
  - apply H1. intros row e a. apply Hsel.
  - apply H2. intros row e a. destruct (isNull e); [apply Hsel|].
    by intros [= <-].
Qed.

Lemma defaultMerge_isObject left right a :
  defaultMerge left right = Return a → isObject a = true.
Proof.
  unfold defaultMerge.
  destruct (copyOwn left _) as [rec1|]; simpl; [|done].
  destruct (copyOwn right rec1) as [rec2|]; simpl; [|done].
  intros [= <-]. unfold finish. by destruct (draftProto rec2).
Qed.

(** ** What a call does to [Array.prototype] *)

Lemma indexPush_elements index elements key row :
  elements `prefix_of` (indexPush index elements key row).2.
Proof.
  unfold indexPush. destruct (indexGet index elements key); simpl; try done.
  by apply prefix_app_r.
Qed.

Lemma buildIndex_elements right rightKey index elements :
  elements `prefix_of` (buildIndex right rightKey index elements).2.
Proof.
  revert index elements.
  induction right as [|row rest IH]; intros index elements; simpl; [done|].
  destruct (toPropertyKey (getField row rightKey)) as [key|]; [|done].
  pose proof (indexPush_elements index elements key row) as Hpush.
  destruct (indexPush index elements key row) as [[index'|] elements'];
    simpl in *; [|done].
  etrans; [exact Hpush|apply IH].
Qed.

Lemma leftIterate_elements left right leftKey rightKey select elements :
  elements `prefix_of`
    (leftIterate left right leftKey rightKey select elements).2.
Proof.
  unfold leftIterate.
  pose proof (buildIndex_elements right rightKey ∅ elements) as H.
  by destruct (buildIndex right rightKey ∅ elements) as [[index|] elements'].
Qed.

Lemma leftRightIterate_elements left right leftKey rightKey select elements :
  elements `prefix_of`
    (leftRightIterate left right leftKey rightKey select elements).2.
Proof.
  unfold leftRightIterate.
  pose proof (leftIterate_elements left right leftKey rightKey
    (λ left right, select (Some left) right) elements) as H1.
  destruct (leftIterate left right leftKey rightKey _ elements)
    as [[leftResult|] elements1]; simpl in *; [|done].
  pose proof (leftIterate_elements right left rightKey leftKey
    (λ right left, if isNull left then select left (Some right)
                   else Return (AValue VUndefined)) elements1) as H2.
  destruct (leftIterate right left rightKey leftKey _ elements1)
    as [[rightResult|] elements2]; simpl in *; by etrans.
Qed.

(** The index never holds a group under [__proto__]: rows with that key go
    into [Array.prototype]. *)
Lemma buildIndex_proto right rightKey index elements index' elements' :
  index !! "__proto__" = None →
  buildIndex right rightKey index elements = (Return index', elements') →
  index' !! "__proto__" = None ∧
  elements' =
    elements ++ filter (λ r, keyOf r rightKey = "__proto__") right.
Proof.
  revert index elements.
  induction right as [|row rest IH]; intros index elements Hnone; simpl.
  { intros [= <- <-]. by rewrite app_nil_r. }
  destruct (toPropertyKey (getField row rightKey)) as [key|] eqn:Hk;
    [|done].
  assert (keyOf row rightKey = key) as Hrow
    by (unfold keyOf; by rewrite Hk).
  rewrite filter_cons, Hrow.
  unfold indexPush, indexGet.
  destruct (index !! key) as [rows|] eqn:Hkey.
  { intros Hbuild. apply IH in Hbuild as [? ->].
    - split; [done|]. rewrite decide_False; [done|]. congruence.
    - rewrite lookup_insert_ne; [done|]. congruence. }
  destruct (String.eqb key "length") eqn:Hlen; [done|].
  destruct (arrayIndex key ≫= _) as [r|] eqn:Hidx; [done|].
  destruct (String.eqb key "__proto__") eqn:Hproto.
  { apply String.eqb_eq in Hproto as ->.
    intros Hbuild. apply IH in Hbuild as [? ->]; [|done].
    split; [done|]. rewrite decide_True by done.
    by rewrite <- app_assoc. }
  apply String.eqb_neq in Hproto.
  destruct (arrayMember rt key || objectMember rt key); [done|].
  intros Hbuild. apply IH in Hbuild as [? ->].
  - split; [done|]. by rewrite decide_False.
  - by rewrite lookup_insert_ne.
Qed.

(** ** Keys that make the first loop throw *)

Lemma reservedKey_indexGet index elements key :
  reservedKey key = true → index !! key = None →
  (∃ n, indexGet index elements key = Length n) ∨
  indexGet index elements key = Member.
Proof.
  unfold reservedKey, indexGet. intros Hres ->.
  destruct (String.eqb key "length"); [by left; eexists|]. simpl in Hres.
  apply andb_true_iff in Hres as [[Hmem Hproto]%andb_true_iff Hidx].
  apply bool_decide_eq_true in Hidx. rewrite Hidx. simpl.
  apply negb_true_iff in Hproto. rewrite Hproto, Hmem. by right.
Qed.

Lemma buildIndex_reserved right rightKey index elements row key :
  reservedKey key = true →
  index !! key = None →
  row ∈ right →
  toPropertyKey (getField row rightKey) = Return key →
  (buildIndex right rightKey index elements).1 = Throw TypeError.
Proof.
  intros Hres. revert index elements.
  induction right as [|row' rest IH]; intros index elements Hnone Hin Hkey.
  { by apply elem_of_nil in Hin. }
  simpl.
  destruct (toPropertyKey (getField row' rightKey)) as [key'|[]] eqn:Hkey';
    [|done].
  destruct (decide (key' = key)) as [->|Hne].
  { unfold indexPush.
    destruct (reservedKey_indexGet index elements key Hres Hnone)
      as [[n ->]| ->]; done. }
  assert (row ∈ rest) as Hrest.
  { apply elem_of_cons in Hin as [->|]; [|done]. congruence. }
  unfold indexPush.
  destruct (indexGet index elements key') as [rows|n|r| | |] eqn:Hget;
    simpl; try done.
  - apply IH; [by rewrite lookup_insert_ne|done..].
  - apply IH; done.
  - apply IH; [by rewrite lookup_insert_ne|done..].
Qed.

(** ** Rows are neither lost nor repeated *)

Lemma indexSize_insert_None (index : groups) key rows :
  index !! key = None →
  indexSize (<[key := rows]> index) = length rows + indexSize index.
Proof.
  intros Hnone. unfold indexSize.
  rewrite map_fold_insert_L; [done | intros; lia | done].
Qed.

Lemma indexSize_insert_Some (index : groups) key old rows :
  index !! key = Some old →
  indexSize (<[key := rows]> index) + length old =
  length rows + indexSize index.
Proof.
  intros Hsome. unfold indexSize.
  rewrite <- insert_delete_eq.
  rewrite map_fold_insert_L; [| intros; lia | apply lookup_delete_eq].
  rewrite (map_fold_delete_L _ _ key old index); [| intros; lia | done].
  lia.
Qed.

Lemma indexGet_Group index elements key rows :
  indexGet index elements key = Group rows → index !! key = Some rows.
Proof.
  unfold indexGet. destruct (index !! key); [by intros [= ->]|].
  destruct (String.eqb key "length"); [done|].
  destruct (arrayIndex key ≫= _); [done|].
  destruct (String.eqb key "__proto__"); [done|].
  by destruct (arrayMember rt key || objectMember rt key).
Qed.

Lemma indexGet_Absent index elements key :
  indexGet index elements key = Absent → index !! key = None.
Proof. unfold indexGet. by destruct (index !! key). Qed.

Lemma buildIndex_size right rightKey index elements index' elements' :
  buildIndex right rightKey index elements = (Return index', elements') →
  (indexSize index' + length elements' =
   indexSize index + length elements + length right)%nat.
Proof.
  revert index elements.
  induction right as [|row rest IH]; intros index elements; simpl.
  { intros [= <- <-]. lia. }
  destruct (toPropertyKey (getField row rightKey)) as [key|]; [|done].
  unfold indexPush.
  destruct (indexGet index elements key) as [rows|n|r| | |] eqn:Hget;
    simpl; try done.
  - intros ->%IH. apply indexGet_Group in Hget.
    pose proof (indexSize_insert_Some index key rows (rows ++ [row]) Hget).
    rewrite length_app in *. simpl in *. lia.
  - intros ->%IH. rewrite length_app. simpl. lia.
  - intros ->%IH. apply indexGet_Absent in Hget.
    rewrite (indexSize_insert_None _ _ _ Hget). simpl. lia.
Qed.

(** ** The default merge on every record *)

Lemma assign_commute prop1 v1 prop2 v2 rec :
  prop1 ≠ prop2 →
  assign prop1 v1 (assign prop2 v2 rec) =
  assign prop2 v2 (assign prop1 v1 rec).
Proof.
  intros Hne. destruct rec as [proto own]. unfold assign. simpl.
  destruct (String.eqb prop1 "__proto__") eqn:H1;
    destruct (String.eqb prop2 "__proto__") eqn:H2; simpl.
  - apply String.eqb_eq in H1, H2. congruence.
  - apply String.eqb_eq in H1 as ->.
    rewrite lookup_insert_ne by done.
    destruct (bool_decide (own !! "__proto__" = None)); simpl;
      [|by rewrite insert_insert_ne].
    destruct proto as [| |p]; simpl.
    + destruct v1; simpl; try done.
    + by rewrite insert_insert_ne.
    + destruct (bool_decide (p !! "__proto__" = None)); simpl;
        [|by rewrite insert_insert_ne].
      destruct v1; simpl; try done.
  - apply String.eqb_eq in H2 as ->.
    rewrite lookup_insert_ne by done.
    destruct (bool_decide (own !! "__proto__" = None)); simpl;
      [|by rewrite insert_insert_ne].
    destruct proto as [| |p]; simpl.
    + destruct v2; simpl; try done.
    + by rewrite insert_insert_ne.
    + destruct (bool_decide (p !! "__proto__" = None)); simpl;
        [|by rewrite insert_insert_ne].
      destruct v2; simpl; try done.
  - by rewrite insert_insert_ne.
Qed.

Lemma foldl_reverse {A B} (f : A → B → A) (a : A) (l : list B) :
  foldl f a l = foldr (λ x acc, f acc x) a (reverse l).
Proof.
  revert a. induction l as [|x l IH]; intros a; [done|].
  rewrite reverse_cons, foldr_app. simpl. apply IH.
Qed.

Lemma map_fold_assign_any_order (src : record) (rec : draft)
    (fields : list (string * value)) :
  fields ≡ₚ map_to_list src →
  map_fold assign rec src =
  foldl (λ rec field, assign field.1 field.2 rec) rec fields.
Proof.
  intros Hp. rewrite map_fold_foldr, foldl_reverse.
  trans (foldr (uncurry assign) rec (reverse fields)).
  - apply (foldr_permutation (=) (uncurry assign)).
    + solve_proper.
    + intros j1 [p1 v1] j2 [p2 v2] b Hne H1 H2. simpl.
      apply assign_commute. intros ->.
      apply Hne. eapply (NoDup_lookup ((map_to_list src).*1)).
      * apply NoDup_fst_map_to_list.
      * rewrite list_lookup_fmap, H1. done.
      * rewrite list_lookup_fmap, H2. done.
    + by rewrite reverse_Permutation, Hp.
  - induction (reverse fields) as [|[p v] l IH]; [done|].
    simpl. by rewrite IH.
Qed.

(** * The joins: what holds on ordinary input, and where it fails *)

Lemma ordinary_iff elements left right leftKey rightKey merge :
  ordinary elements left right leftKey rightKey merge = true ↔
  ordinaryRows elements left leftKey = true ∧
  ordinaryRows elements right rightKey = true ∧
  mergeable merge (left ++ right) = true.
Proof. unfold ordinary. rewrite !andb_true_iff. tauto. Qed.

Lemma ordinaryRows_sub elements rows rows' key :
  (∀ row, row ∈ rows' → row ∈ rows) →
  ordinaryRows elements rows key = true →
  ordinaryRows elements rows' key = true.
Proof.
  unfold ordinaryRows. rewrite !forallb_forall.
  intros Hsub H row Hin. apply H.
  apply list_elem_of_In, Hsub. by apply list_elem_of_In.
Qed.

Lemma mergeable_sub merge rows rows' :
  (∀ row, row ∈ rows' → row ∈ rows) →
  mergeable merge rows = true → mergeable merge rows' = true.
Proof.
  destruct merge as [merge|]; [done|]. simpl. rewrite !forallb_forall.
  intros Hsub H row Hin. apply H.
  apply list_elem_of_In, Hsub. by apply list_elem_of_In.
Qed.

(** Input made of rows of an ordinary input is ordinary. *)
Lemma ordinary_sub elements left right left' right' leftKey rightKey merge :
  (∀ row, row ∈ left' → row ∈ left) →
  (∀ row, row ∈ right' → row ∈ right) →
  ordinary elements left right leftKey rightKey merge = true →
  ordinary elements left' right' leftKey rightKey merge = true.
Proof.
  intros Hl Hr. rewrite !ordinary_iff. intros (Hol & Hor & Hm).
  split_and!.
  - by eapply ordinaryRows_sub.
  - by eapply ordinaryRows_sub.
  - eapply mergeable_sub; [|exact Hm].
    intros row [?|?]%elem_of_app; apply elem_of_app; auto.
Qed.

Lemma ordinary_exchange elements left right leftKey rightKey merge merge' :
  ordinary elements left right leftKey rightKey (Some merge) = true →
  ordinary elements right left rightKey leftKey (Some merge') = true.
Proof. rewrite !ordinary_iff. simpl. tauto. Qed.

Lemma mergeOr_ordinary elements left right leftKey rightKey merge l r :
  ordinary elements left right leftKey rightKey merge = true →
  l = ∅ ∨ l ∈ left → r = ∅ ∨ r ∈ right →
  mergeOr merge l r = Return (idealMerge merge l r).
Proof.
  intros (_ & _ & Hpl & Hpr)%ordinary_parts Hl Hr.
  apply mergeOr_plain. intros Hnone. split.
  - destruct Hl as [->|Hl]; [done|by apply Hpl].
  - destruct Hr as [->|Hr]; [done|by apply Hpr].
Qed.

Local Ltac lists H :=
  destruct (joins_ordinary _ _ _ _ _ _ H)
    as (?Hinner & ?Houter & ?Hleft & ?Hright & ?HleftEx & ?HrightEx &
        ?HouterEx).

(** C1, as amended. On ordinary input, when a given merge returns a truthy
    value on every pair (the default merge always returns a record),
    [outerJoin] is complete: the call returns one row for each origin, in
    order; every left row and every right row is in some origin; no origin
    occurs twice, so a matched pair gives one row; and a right row stands
    alone only when no left row matches it. *)
Theorem outerJoin_complete_ordinary
    (elements : arrayPrototype) (left right : list record)
    (leftKey rightKey : string)
    (merge : option (record → record → answer)) :
  ordinary elements left right leftKey rightKey merge = true →
  (∀ m, merge = Some m → ∀ l r, truthy (m l r) = true) →
  outerJoin_complete elements left right leftKey rightKey merge.
Proof.
  intros Hord Hmerge. lists Hord. unfold outerJoin_complete. split_and!.
  - rewrite Houter. f_equal. f_equal.
    rewrite idealOuterJoin_rows. apply filter_truthy_all.
    intros o. unfold rowOf. destruct merge as [m|]; [|done].
    by apply Hmerge.
  - intros i l. apply outerOrigins_covers_left.
  - intros j r. apply outerOrigins_covers_right.
  - apply outerOrigins_NoDup.
  - intros i l j r. apply outerOrigins_elem_both.
  - intros j r. apply outerOrigins_elem_right.
Qed.

(** C2. [innerJoin] throws when a right record has the key value [length]:
    the index already resolves that key to its length; no row is returned for
    the left record that matches it, nor for an empty left collection. *)
Theorem innerJoin_length_key_throws (elements : arrayPrototype) :
  innerJoin [ {[ "id" := VStr "length" ]} ] [ {[ "id" := VStr "length" ]} ]
            "id" "id" None elements = (Throw TypeError, elements) ∧
  innerJoin [] [ {[ "id" := VStr "length" ]} ]
            "id" "id" None elements = (Throw TypeError, elements) ∧
  matchCount [ {[ "id" := VStr "length" ]} ] "id"
             (keyOf {[ "id" := VStr "length" ]} "id") = 1.
Proof. by split_and!. Qed.

(** C3. [leftJoin] returns no row for a left record whose key value is
    [__proto__]: the index resolves that key to [Array.prototype], which has
    no element in a fresh runtime, so the callback is not called; and
    [leftJoin] throws when a right record has the key value [length]. *)
Theorem leftJoin_proto_key_gives_no_row :
  leftJoin [ {[ "id" := VStr "__proto__" ]} ] [] "id" "id" None [] =
    (Return [], []) ∧
  ∀ elements,
    leftJoin [ {[ "id" := num 1 ]} ] [ {[ "id" := VStr "length" ]} ]
             "id" "id" None elements = (Throw TypeError, elements).
Proof. by split. Qed.

(** C4. [innerJoin] throws on a left record with two right-side matches when
    the key value they share is [length]. *)
Theorem innerJoin_duplicate_length_keys_throw (elements : arrayPrototype) :
  innerJoin [ {[ "id" := VStr "length" ]} ]
            [ {[ "id" := VStr "length"; "x" := VStr "a" ]};
              {[ "id" := VStr "length"; "x" := VStr "b" ]} ]
            "id" "id" None elements = (Throw TypeError, elements) ∧
  matchCount [ {[ "id" := VStr "length"; "x" := VStr "a" ]};
               {[ "id" := VStr "length"; "x" := VStr "b" ]} ] "id"
             (keyOf {[ "id" := VStr "length" ]} "id") = 2.
Proof. by split. Qed.

(** C5, as amended. On ordinary input [leftJoin] returns its rows left record
    by left record, and [leftExcludingJoin] returns those of the left records
    that no right record matches, each the merge of the record with [{}]; it
    is a subsequence of what [leftJoin] returns. *)
Theorem leftExcludingJoin_unmatched_rows_of_leftJoin
    (elements : arrayPrototype) (left right : list record)
    (leftKey rightKey : string)
    (merge : option (record → record → answer)) :
  ordinary elements left right leftKey rightKey merge = true →
  ∃ rowsFor : record → list answer,
    (∀ row, row ∈ left →
       leftJoin [row] right leftKey rightKey merge elements =
       (Return (rowsFor row), elements)) ∧
    leftJoin left right leftKey rightKey merge elements =
      (Return (left ≫= rowsFor), elements) ∧
    leftExcludingJoin left right leftKey rightKey merge elements =
      (Return (filter (unmatched right leftKey rightKey) left ≫= rowsFor),
       elements) ∧
    (∀ row, row ∈ left → unmatched right leftKey rightKey row →
       ∃ merged, mergeOr merge row ∅ = Return merged ∧
                 rowsFor row = filter (λ v, truthy v) [merged]) ∧
    sublist (filter (unmatched right leftKey rightKey) left ≫= rowsFor)
            (left ≫= rowsFor).
Proof.
  intros Hord. lists Hord.
  destruct (idealLeftExcludingJoin_unmatched_rows_of_leftJoin_lists
    left right leftKey rightKey merge) as (HJ & HE & HE' & Hsub).
  exists (λ row, idealLeftJoin [row] right leftKey rightKey merge).
  split_and!.
  - intros row Hrow.
    assert (ordinary elements [row] right leftKey rightKey merge = true)
      as Hone.
    { eapply ordinary_sub; [| |exact Hord]; [|done].
      intros ? ->%list_elem_of_singleton. done. }
    by destruct (joins_ordinary _ _ _ _ _ _ Hone) as (_ & _ & -> & _).
  - by rewrite Hleft, HJ.
  - rewrite HleftEx. f_equal. f_equal. exact HE.
  - intros row Hrow Hun. exists (idealMerge merge row ∅). split.
    + eapply mergeOr_ordinary; [exact Hord|by right|by left].
    + rewrite idealLeftJoin_one. unfold unmatched, matchCount in Hun.
      destruct (matches right rightKey (keyOf row leftKey)); [done|].
      done.
  - rewrite HE, HJ in Hsub. exact Hsub.
Qed.

(** C6. [leftIterate] leaves out a left row whose key value is [__proto__]
    without calling [select]: whatever [select] returns or throws, the
    result is empty. *)
Theorem leftIterate_proto_key_skips_select
    (select : record → option record → outcome answer) :
  leftIterate [ {[ "id" := VStr "__proto__" ]} ] [] "id" "id" select [] =
  (Return [], []).
Proof. done. Qed.

(** C8. [defaultMerge] loses an own field named [__proto__], and throws on a
    record with an own field named [hasOwnProperty]. *)
Theorem defaultMerge_special_fields :
  defaultMerge {[ "__proto__" := num 1; "a" := num 2 ]} ∅ =
    Return (AValue (VObj {[ "a" := num 2 ]})) ∧
  defaultMerge {[ "hasOwnProperty" := num 1; "a" := num 2 ]} ∅ =
    Throw TypeError.
Proof. split; by vm_compute. Qed.

(** * Further properties of the joins *)

(** X31. On ordinary input each of the seven joins returns and leaves
    [Array.prototype] as it found it. *)
Theorem joins_return_on_ordinary_input
    (elements : arrayPrototype) (left right : list record)
    (leftKey rightKey : string)
    (merge : option (record → record → answer)) :
  ordinary elements left right leftKey rightKey merge = true →
  let returns call := ∃ rows : list answer, call = (Return rows, elements) in
  returns (innerJoin left right leftKey rightKey merge elements) ∧
  returns (outerJoin left right leftKey rightKey merge elements) ∧
  returns (leftJoin left right leftKey rightKey merge elements) ∧
  returns (rightJoin left right leftKey rightKey merge elements) ∧
  returns (leftExcludingJoin left right leftKey rightKey merge elements) ∧
  returns (rightExcludingJoin left right leftKey rightKey merge elements) ∧
  returns (outerExcludingJoin left right leftKey rightKey merge elements).
Proof. intros Hord returns. lists Hord. split_and!; by eexists. Qed.

(** X26. On ordinary input, with the default merge, [innerJoin] returns as
    many rows as the match counts of the left records add up to: left record
    by left record, its merges with the matching right records, so a left
    record without a match adds nothing. *)
Theorem innerJoin_length_ordinary
    (elements : arrayPrototype) (left right : list record)
    (leftKey rightKey : string) :
  ordinary elements left right leftKey rightKey None = true →
  ∃ rows,
    innerJoin left right leftKey rightKey None elements =
      (Return rows, elements) ∧
    length rows =
      sum_list_with
        (λ row, matchCount right rightKey (keyOf row leftKey)) left ∧
    rows =
      left ≫= (λ row, (λ r, AValue (VObj (unionMerge row r))) <$>
                         matches right rightKey (keyOf row leftKey)).
Proof.
  intros Hord. lists Hord. eexists. split; [exact Hinner|].
  apply idealInnerJoin_length_lists.
Qed.

(** X27. On ordinary input, with the default merge, [leftJoin] returns
    [max matchCount 1] rows for each left record, hence at least one row per
    left record; the rows of a left record without a match are the one row
    merging it with [{}]. *)
Theorem leftJoin_length_ordinary
    (elements : arrayPrototype) (left right : list record)
    (leftKey rightKey : string) :
  ordinary elements left right leftKey rightKey None = true →
  ∃ rows,
    leftJoin left right leftKey rightKey None elements =
      (Return rows, elements) ∧
    length rows =
      sum_list_with
        (λ row, matchCount right rightKey (keyOf row leftKey) `max` 1) left ∧
    (length left ≤ length rows)%nat ∧
    rows =
      left ≫= (λ row,
        match matches right rightKey (keyOf row leftKey) with
        | [] => [AValue (VObj (unionMerge row ∅))]
        | ms => (λ r, AValue (VObj (unionMerge row r))) <$> ms
        end).
Proof.
  intros Hord. lists Hord. eexists. split; [exact Hleft|].
  destruct (idealLeftJoin_length_lists left right leftKey rightKey)
    as (Hlen & Hge & _).
  split_and!; [done|done|]. apply idealLeftJoin_rows_default_lists.
Qed.

(** X28. On ordinary input, with the default merge, the rows [innerJoin]
    returns for a left record are its merges with the matching right records,
    one for each, in the order of the right collection, wherever the record
    stands in the left collection. *)
Theorem innerJoin_duplicate_keys_ordinary
    (elements : arrayPrototype) (before after right : list record)
    (row : record) (leftKey rightKey : string) :
  ordinary elements (before ++ row :: after) right leftKey rightKey None
    = true →
  ∃ rowsBefore rowsAfter,
    innerJoin before right leftKey rightKey None elements =
      (Return rowsBefore, elements) ∧
    innerJoin after right leftKey rightKey None elements =
      (Return rowsAfter, elements) ∧
    innerJoin (before ++ row :: after) right leftKey rightKey None elements =
      (Return (rowsBefore ++
               ((λ r, AValue (VObj (unionMerge row r))) <$>
                  matches right rightKey (keyOf row leftKey)) ++
               rowsAfter), elements) ∧
    length ((λ r, AValue (VObj (unionMerge row r))) <$>
              matches right rightKey (keyOf row leftKey)) =
      matchCount right rightKey (keyOf row leftKey).
Proof.
  intros Hord.
  assert (ordinary elements before right leftKey rightKey None = true) as Hb.
  { eapply ordinary_sub; [| |exact Hord]; [|done].
    intros r Hr. apply elem_of_app. by left. }
  assert (ordinary elements after right leftKey rightKey None = true) as Ha.
  { eapply ordinary_sub; [| |exact Hord]; [|done].
    intros r Hr. apply elem_of_app. right. by apply list_elem_of_further. }
  destruct (joins_ordinary _ _ _ _ _ _ Hord) as (-> & _).
  destruct (joins_ordinary _ _ _ _ _ _ Hb) as (-> & _).
  destruct (joins_ordinary _ _ _ _ _ _ Ha) as (-> & _).
  eexists _, _. split_and!; [done|done| |by rewrite length_fmap].
  destruct idealInnerJoin_duplicate_keys_lists as (H & _). by rewrite H.
Qed.

(** X29. On ordinary input, for every merge, [outerJoin] returns what
    [leftJoin] returns followed by what [rightExcludingJoin] returns. *)
Theorem outerJoin_leftJoin_rightExcludingJoin_ordinary
    (elements : arrayPrototype) (left right : list record)
    (leftKey rightKey : string)
    (merge : option (record → record → answer)) :
  ordinary elements left right leftKey rightKey merge = true →
  ∃ leftRows rightRows,
    leftJoin left right leftKey rightKey merge elements =
      (Return leftRows, elements) ∧
    rightExcludingJoin left right leftKey rightKey merge elements =
      (Return rightRows, elements) ∧
    outerJoin left right leftKey rightKey merge elements =
      (Return (leftRows ++ rightRows), elements).
Proof.
  intros Hord. lists Hord. eexists _, _. split_and!; [done|done|].
  by rewrite Houter, idealOuterJoin_leftJoin_rightExcludingJoin_lists.
Qed.

(** X30. On ordinary input, when the key names are not names that records
    inherit, a left record without the left key field has the property key
    [undefined], the key of the right records without the right key field:
    [innerJoin] returns its merge with each of them. *)
Theorem keyless_records_are_paired_ordinary
    (elements : arrayPrototype) (left right : list record)
    (leftKey rightKey : string) (l r : record) :
  ordinary elements left right leftKey rightKey None = true →
  inheritedName leftKey = false → inheritedName rightKey = false →
  l ∈ left → r ∈ right →
  l !! leftKey = None → r !! rightKey = None →
  ∃ rows,
    innerJoin left right leftKey rightKey None elements =
      (Return rows, elements) ∧
    keyOf l leftKey = "undefined" ∧
    keyOf r rightKey = "undefined" ∧
    AValue (VObj (unionMerge l r)) ∈ rows.
Proof.
  intros Hord Hnl Hnr Hl Hr Hlk Hrk. lists Hord.
  pose proof (keyOf_missing l leftKey Hnl Hlk) as Hkl.
  pose proof (keyOf_missing r rightKey Hnr Hrk) as Hkr.
  eexists. split; [exact Hinner|]. split_and!; [done|done|].
  apply idealInnerJoin_elem_default; [done|done|]. by rewrite Hkl, Hkr.
Qed.

(** X1. On ordinary input, with the default merge, [rightJoin] goes through
    the right records in order: each gives its merges with the matching left
    records, in the order of the left collection, or itself when no left
    record matches; so it returns at least one row per right record. *)
Theorem rightJoin_rows_default
    (elements : arrayPrototype) (left right : list record)
    (leftKey rightKey : string) :
  ordinary elements left right leftKey rightKey None = true →
  ∃ rows,
    rightJoin left right leftKey rightKey None elements =
      (Return rows, elements) ∧
    rows =
      right ≫= (λ r,
        match matches left leftKey (keyOf r rightKey) with
        | [] => [AValue (VObj r)]
        | ms => (λ l, AValue (VObj (unionMerge l r))) <$> ms
        end) ∧
    length rows =
      sum_list_with
        (λ r, matchCount left leftKey (keyOf r rightKey) `max` 1) right ∧
    (length right ≤ length rows)%nat.
Proof.
  intros Hord. lists Hord. eexists. split; [exact Hright|].
  apply idealRightJoin_rows_default_lists.
Qed.

(** X2. On ordinary input, for every merge, [outerExcludingJoin] returns what
    [leftExcludingJoin] returns followed by what [rightExcludingJoin]
    returns. *)
Theorem outerExcludingJoin_leftExcluding_rightExcluding
    (elements : arrayPrototype) (left right : list record)
    (leftKey rightKey : string)
    (merge : option (record → record → answer)) :
  ordinary elements left right leftKey rightKey merge = true →
  ∃ leftRows rightRows,
    leftExcludingJoin left right leftKey rightKey merge elements =
      (Return leftRows, elements) ∧
    rightExcludingJoin left right leftKey rightKey merge elements =
      (Return rightRows, elements) ∧
    outerExcludingJoin left right leftKey rightKey merge elements =
      (Return (leftRows ++ rightRows), elements).
Proof.
  intros Hord. lists Hord. eexists _, _. split_and!; [done|done|].
  by rewrite HouterEx, idealOuterExcludingJoin_leftExcluding_rightExcluding_lists.
Qed.

(** X3. On ordinary input, for every merge, what [leftJoin] returns is a
    permutation of what [innerJoin] returns followed by what
    [leftExcludingJoin] returns; the rows of [innerJoin] are a subsequence of
    those of [leftJoin]. *)
Theorem leftJoin_is_inner_and_excluding
    (elements : arrayPrototype) (left right : list record)
    (leftKey rightKey : string)
    (merge : option (record → record → answer)) :
  ordinary elements left right leftKey rightKey merge = true →
  ∃ leftRows innerRows excludingRows,
    leftJoin left right leftKey rightKey merge elements =
      (Return leftRows, elements) ∧
    innerJoin left right leftKey rightKey merge elements =
      (Return innerRows, elements) ∧
    leftExcludingJoin left right leftKey rightKey merge elements =
      (Return excludingRows, elements) ∧
    leftRows ≡ₚ innerRows ++ excludingRows ∧
    sublist innerRows leftRows ∧
    length leftRows = length innerRows + length excludingRows.
Proof.
  intros Hord. lists Hord. eexists _, _, _.
  split_and!; [done|done|done|..];
    apply idealLeftJoin_is_inner_and_excluding_lists.
Qed.

(** X4. On ordinary input [innerJoin] is symmetric up to the order of the
    rows: with the two collections and the two keys exchanged, and the merge
    taking its arguments in the other order, it returns the same rows. *)
Theorem innerJoin_exchange
    (elements : arrayPrototype) (left right : list record)
    (leftKey rightKey : string) (merge : record → record → answer) :
  ordinary elements left right leftKey rightKey (Some merge) = true →
  sameUpToOrder
    (innerJoin left right leftKey rightKey (Some merge))
    (innerJoin right left rightKey leftKey (Some (λ r l, merge l r)))
    elements.
Proof.
  intros Hord.
  pose proof (ordinary_exchange _ _ _ _ _ _ (λ r l, merge l r) Hord) as Hord'.
  destruct (joins_ordinary _ _ _ _ _ _ Hord) as (Hi & _).
  destruct (joins_ordinary _ _ _ _ _ _ Hord') as (Hi' & _).
  eexists _, _. split_and!; [done|done|].
  apply idealInnerJoin_exchange_lists.
Qed.

(** X5. On ordinary input, for every merge, what [outerJoin] returns is a
    permutation of what [innerJoin] returns followed by what
    [outerExcludingJoin] returns. *)
Theorem outerJoin_is_inner_and_excluding
    (elements : arrayPrototype) (left right : list record)
    (leftKey rightKey : string)
    (merge : option (record → record → answer)) :
  ordinary elements left right leftKey rightKey merge = true →
  ∃ outerRows innerRows excludingRows,
    outerJoin left right leftKey rightKey merge elements =
      (Return outerRows, elements) ∧
    innerJoin left right leftKey rightKey merge elements =
      (Return innerRows, elements) ∧
    outerExcludingJoin left right leftKey rightKey merge elements =
      (Return excludingRows, elements) ∧
    outerRows ≡ₚ innerRows ++ excludingRows ∧
    length outerRows = length innerRows + length excludingRows.
Proof.
  intros Hord. lists Hord. eexists _, _, _.
  split_and!; [done|done|done|..].
  - apply idealOuterJoin_is_inner_and_excluding_lists.
  - destruct (idealOuterJoin_is_inner_and_excluding_lists
      left right leftKey rightKey merge) as [Hp _].
    by rewrite Hp, length_app.
Qed.

(** X7. With an empty right collection and ordinary left rows, for every
    merge: [innerJoin], [rightJoin] and [rightExcludingJoin] return no row;
    [leftJoin], [leftExcludingJoin], [outerJoin] and [outerExcludingJoin]
    return the truthy merges of the left records with [{}]. *)
Theorem joins_with_empty_right
    (elements : arrayPrototype) (left : list record)
    (leftKey rightKey : string)
    (merge : option (record → record → answer)) :
  ordinary elements left [] leftKey rightKey merge = true →
  ∃ alone,
    Forall2 (λ l merged, mergeOr merge l ∅ = Return merged) left alone ∧
    let rows := filter (λ v, truthy v) alone in
    innerJoin left [] leftKey rightKey merge elements =
      (Return [], elements) ∧
    rightJoin left [] leftKey rightKey merge elements =
      (Return [], elements) ∧
    rightExcludingJoin left [] leftKey rightKey merge elements =
      (Return [], elements) ∧
    leftJoin left [] leftKey rightKey merge elements =
      (Return rows, elements) ∧
    leftExcludingJoin left [] leftKey rightKey merge elements =
      (Return rows, elements) ∧
    outerJoin left [] leftKey rightKey merge elements =
      (Return rows, elements) ∧
    outerExcludingJoin left [] leftKey rightKey merge elements =
      (Return rows, elements).
Proof.
  intros Hord. lists Hord.
  destruct (joins_with_empty_right_lists left leftKey rightKey merge)
    as (Ei & Er & Ere & El & Ele & Eo & Eoe & _).
  exists ((λ l, idealMerge merge l ∅) <$> left). split.
  { apply Forall2_fmap_r, Forall_Forall2_diag, Forall_forall.
    intros l Hl. eapply mergeOr_ordinary; [exact Hord|by right|by left]. }
  intros rows. subst rows.
  rewrite Hinner, Houter, Hleft, Hright, HleftEx, HrightEx, HouterEx.
  by rewrite Ei, Er, Ere, El, Ele, Eo, Eoe.
Qed.

(** X9. On ordinary input, with the default merge, the excluding joins
    return input records as they are: [leftExcludingJoin] the left records
    that no right record matches, [rightExcludingJoin] the right records that
    no left record matches, [outerExcludingJoin] the former and then the
    latter. *)
Theorem excludingJoins_return_unmatched_records
    (elements : arrayPrototype) (left right : list record)
    (leftKey rightKey : string) :
  ordinary elements left right leftKey rightKey None = true →
  leftExcludingJoin left right leftKey rightKey None elements =
    (Return ((λ r, AValue (VObj r)) <$>
               filter (unmatched right leftKey rightKey) left), elements) ∧
  rightExcludingJoin left right leftKey rightKey None elements =
    (Return ((λ r, AValue (VObj r)) <$>
               filter (unmatched left rightKey leftKey) right), elements) ∧
  outerExcludingJoin left right leftKey rightKey None elements =
    (Return ((λ r, AValue (VObj r)) <$>
               (filter (unmatched right leftKey rightKey) left ++
                filter (unmatched left rightKey leftKey) right)), elements).
Proof.
  intros Hord. lists Hord.
  destruct (excludingJoins_return_unmatched_records_lists
    left right leftKey rightKey) as (El & Er & Eo).
  rewrite HleftEx, HrightEx, HouterEx. by rewrite El, Er, Eo.
Qed.

(** X11. Building the index neither loses nor repeats a row: whenever the
    first loop returns, each right row is in a group of the index or has been
    pushed into [Array.prototype]. *)
Theorem buildIndex_keeps_every_row
    (right : list record) (rightKey : string) (elements : arrayPrototype) :
  match buildIndex right rightKey ∅ elements with
  | (Return index, elements') =>
      (indexSize index + length elements' =
       length elements + length right)%nat
  | (Throw _, _) => True
  end.
Proof.
  destruct (buildIndex right rightKey ∅ elements) as [[index|] elements']
    eqn:Hbuild; [|done].
  apply buildIndex_size in Hbuild.
  unfold indexSize in Hbuild at 2. rewrite map_fold_empty in Hbuild. lia.
Qed.

(** X12. On ordinary rows [leftIterate] returns the truthy results of
    [select], in the order of its calls: the left rows in order and, for each
    left row, the right rows that have its property key, in the order of the
    right collection, or [null] once when there is none; a call that returns a
    falsy value adds nothing, and nothing else is left out. *)
Theorem leftIterate_keeps_truthy_results_ordinary
    (elements : arrayPrototype) (left right : list record)
    (leftKey rightKey : string) (select : record → option record → answer) :
  ordinaryRows elements left leftKey = true →
  ordinaryRows elements right rightKey = true →
  leftIterate left right leftKey rightKey
    (λ row entry, Return (select row entry)) elements =
  (Return
     (filter (λ v, truthy v)
        (left ≫= (λ row,
           select row <$>
             match filter (λ r, keyOf r rightKey = keyOf row leftKey) right
             with
             | [] => [None]
             | ms => Some <$> ms
             end))),
   elements).
Proof.
  intros Hleft Hright.
  rewrite (leftIterate_ordinary _ select); [|done|done|done].
  rewrite idealIterate_bind. f_equal. f_equal.
  by rewrite filter_bind_list.
Qed.

(** X14. On ordinary input, for every merge, a value is a row of [innerJoin]
    exactly when it is truthy and is the merge of a left record and a right
    record whose key values give the same property key. *)
Theorem innerJoin_rows_are_matching_pairs
    (elements : arrayPrototype) (left right : list record)
    (leftKey rightKey : string)
    (merge : option (record → record → answer)) :
  ordinary elements left right leftKey rightKey merge = true →
  ∃ rows,
    innerJoin left right leftKey rightKey merge elements =
      (Return rows, elements) ∧
    ∀ v, v ∈ rows ↔
      truthy v = true ∧
      ∃ l r, l ∈ left ∧ r ∈ right ∧
             keyOf l leftKey = keyOf r rightKey ∧
             mergeOr merge l r = Return v.
Proof.
  intros Hord. lists Hord. eexists. split; [exact Hinner|].
  intros v. rewrite idealInnerJoin_rows_are_matching_pairs_lists.
  split; intros [Ht (l & r & Hl & Hr & Hk & Hv)]; (split; [done|]);
    exists l, r; split_and!; try done.
  - rewrite (mergeOr_ordinary _ _ _ _ _ _ l r Hord); [by subst|auto..].
  - rewrite (mergeOr_ordinary _ _ _ _ _ _ l r Hord) in Hv; [|auto..].
    by injection Hv.
Qed.

(** X15. On ordinary input, when no two right records have the same property
    key, the default [leftJoin] returns exactly one row per left record and
    the default [innerJoin] at most one. *)
Theorem unique_right_keys_keep_left_length
    (elements : arrayPrototype) (left right : list record)
    (leftKey rightKey : string) :
  ordinary elements left right leftKey rightKey None = true →
  NoDup ((λ r, keyOf r rightKey) <$> right) →
  ∃ leftRows innerRows,
    leftJoin left right leftKey rightKey None elements =
      (Return leftRows, elements) ∧
    innerJoin left right leftKey rightKey None elements =
      (Return innerRows, elements) ∧
    length leftRows = length left ∧
    (length innerRows ≤ length left)%nat.
Proof.
  intros Hord Hnd. lists Hord. eexists _, _. split_and!; [done|done|..];
    by apply unique_right_keys_keep_left_length_lists.
Qed.

(** X16. On records without fields named [hasOwnProperty] or [__proto__],
    [defaultMerge] returns a record that holds exactly the fields of both, a
    field named on both sides taking the value of the right one. *)
Theorem defaultMerge_plain_records (left right : record) :
  plainRecord left = true → plainRecord right = true →
  ∃ rec : record,
    defaultMerge left right = Return (AValue (VObj rec)) ∧
    (∀ prop,
       rec !! prop =
       match right !! prop with
       | Some v => Some v
       | None => left !! prop
       end) ∧
    dom rec = dom left ∪ dom right.
Proof.
  intros Hl Hr. exists (unionMerge left right). split_and!.
  - by apply defaultMerge_plain.
  - apply unionMerge_lookup.
  - unfold unionMerge. by rewrite dom_union_L, (comm_L (∪)).
Qed.



(** X19. On ordinary input, with the default merge, [outerJoin] returns
    [max matchCount 1] rows for each left record and one row for each right
    record that no left record matches: at least as many rows as either
    collection has records. *)
Theorem outerJoin_length_default
    (elements : arrayPrototype) (left right : list record)
    (leftKey rightKey : string) :
  ordinary elements left right leftKey rightKey None = true →
  ∃ rows,
    outerJoin left right leftKey rightKey None elements =
      (Return rows, elements) ∧
    length rows =
      sum_list_with
        (λ row, matchCount right rightKey (keyOf row leftKey) `max` 1) left +
      length (filter (unmatched left rightKey leftKey) right) ∧
    (length left ≤ length rows)%nat ∧
    (length right ≤ length rows)%nat.
Proof.
  intros Hord. lists Hord. eexists. split; [exact Houter|].
  apply idealOuterJoin_length_default_lists.
Qed.

(** X20. On ordinary input, when every left record has a right record with
    its property key then, for every merge, [leftJoin] returns what
    [innerJoin] returns and [leftExcludingJoin] returns no row. *)
Theorem leftJoin_is_innerJoin_when_all_match
    (elements : arrayPrototype) (left right : list record)
    (leftKey rightKey : string)
    (merge : option (record → record → answer)) :
  ordinary elements left right leftKey rightKey merge = true →
  (∀ l, l ∈ left → ∃ r, r ∈ right ∧ keyOf r rightKey = keyOf l leftKey) →
  ∃ rows,
    leftJoin left right leftKey rightKey merge elements =
      (Return rows, elements) ∧
    innerJoin left right leftKey rightKey merge elements =
      (Return rows, elements) ∧
    leftExcludingJoin left right leftKey rightKey merge elements =
      (Return [], elements).
Proof.
  intros Hord Hall. lists Hord.
  destruct (idealLeftJoin_is_innerJoin_when_all_match_lists
    left right leftKey rightKey merge Hall) as [E1 E2].
  eexists. split_and!; [exact Hleft| |].
  - by rewrite Hinner, E1.
  - by rewrite HleftEx, E2.
Qed.

(** X22. No join returns a falsy row: whenever [leftIterate] or
    [leftRightIterate] returns, whatever the callback and whatever
    [Array.prototype] holds, every row it returns is truthy. *)
Theorem iterators_return_truthy_rows
    (left right : list record) (leftKey rightKey : string)
    (select : record → option record → outcome answer)
    (select2 : option record → option record → outcome answer)
    (elements : arrayPrototype) :
  whenReturns (Forall (λ v, truthy v = true))
    (leftIterate left right leftKey rightKey select elements).1 ∧
  whenReturns (Forall (λ v, truthy v = true))
    (leftRightIterate left right leftKey rightKey select2 elements).1.
Proof.
  split.
  - apply leftIterate_returns. auto.
  - apply leftRightIterate_returns. auto.
Qed.

(** X23. On ordinary input, a merge that returns a falsy value on every pair
    makes each of the seven joins return no row. *)
Theorem falsy_merge_empties_every_join
    (elements : arrayPrototype) (left right : list record)
    (leftKey rightKey : string) (merge : record → record → answer) :
  ordinary elements left right leftKey rightKey (Some merge) = true →
  (∀ l r, truthy (merge l r) = false) →
  innerJoin left right leftKey rightKey (Some merge) elements =
    (Return [], elements) ∧
  outerJoin left right leftKey rightKey (Some merge) elements =
    (Return [], elements) ∧
  leftJoin left right leftKey rightKey (Some merge) elements =
    (Return [], elements) ∧
  rightJoin left right leftKey rightKey (Some merge) elements =
    (Return [], elements) ∧
  leftExcludingJoin left right leftKey rightKey (Some merge) elements =
    (Return [], elements) ∧
  rightExcludingJoin left right leftKey rightKey (Some merge) elements =
    (Return [], elements) ∧
  outerExcludingJoin left right leftKey rightKey (Some merge) elements =
    (Return [], elements).
Proof.
  intros Hord Hfalsy. lists Hord.
  destruct (falsy_merge_empties_every_join_lists left right leftKey rightKey
    merge Hfalsy) as (E1 & E2 & E3 & E4 & E5 & E6 & E7).
  rewrite Hinner, Houter, Hleft, Hright, HleftEx, HrightEx, HouterEx.
  by rewrite E1, E2, E3, E4, E5, E6, E7.
Qed.

(** X25. With the default merge every row returned by each of the seven
    joins is an object: whenever the join returns, whatever the input and
    whatever [Array.prototype] holds. *)
Theorem default_joins_return_records
    (left right : list record) (leftKey rightKey : string)
    (elements : arrayPrototype) :
  let records (call : outcome (list answer) * arrayPrototype) :=
    whenReturns (Forall (λ v, isObject v = true)) call.1 in
  records (innerJoin left right leftKey rightKey None elements) ∧
  records (outerJoin left right leftKey rightKey None elements) ∧
  records (leftJoin left right leftKey rightKey None elements) ∧
  records (rightJoin left right leftKey rightKey None elements) ∧
  records (leftExcludingJoin left right leftKey rightKey None elements) ∧
  records (rightExcludingJoin left right leftKey rightKey None elements) ∧
  records (outerExcludingJoin left right leftKey rightKey None elements).
Proof.
  intros records. unfold records.
  unfold innerJoin, outerJoin, leftJoin, rightJoin, leftExcludingJoin,
    rightExcludingJoin, outerExcludingJoin.
  split_and!;
    (apply leftIterate_returns || apply leftRightIterate_returns);
    intros l r a; simpl;
    repeat match goal with
    | |- context [match ?x with _ => _ end] => destruct x; simpl
    end;
    try (intros [= <-]; done);
    intros Ha _; by apply defaultMerge_isObject in Ha.
Qed.

(** X32. A right row whose key value names something every index already
    resolves ([length], a built-in method) makes the joins that index the
    right collection throw, whatever else the collections hold. *)
Theorem reserved_right_key_throws
    (elements : arrayPrototype) (left right : list record)
    (leftKey rightKey : string)
    (merge : option (record → record → answer))
    (row : record) (key : string) :
  row ∈ right →
  toPropertyKey (getField row rightKey) = Return key →
  reservedKey key = true →
  (innerJoin left right leftKey rightKey merge elements).1 =
    Throw TypeError ∧
  (leftJoin left right leftKey rightKey merge elements).1 =
    Throw TypeError ∧
  (leftExcludingJoin left right leftKey rightKey merge elements).1 =
    Throw TypeError ∧
  (outerJoin left right leftKey rightKey merge elements).1 =
    Throw TypeError ∧
  (outerExcludingJoin left right leftKey rightKey merge elements).1 =
    Throw TypeError.
Proof.
  intros Hin Hkey Hres.
  pose proof (buildIndex_reserved right rightKey ∅ elements row key
    Hres (lookup_empty _) Hin Hkey) as Hthrow.
  assert (∀ select,
    (leftIterate left right leftKey rightKey select elements).1 =
    Throw TypeError) as Hit.
  { intros select. unfold leftIterate.
    destruct (buildIndex right rightKey ∅ elements) as [[index|e] elements'];
      simpl in *; [done|]. by destruct e. }
  unfold innerJoin, leftJoin, leftExcludingJoin, outerJoin,
    outerExcludingJoin, leftRightIterate.
  split_and!; try apply Hit.
  - specialize (Hit (λ left right,
      mergeOr merge (orEmpty (Some left)) (orEmpty right))).
    destruct (leftIterate left right leftKey rightKey _ elements)
      as [[rows|e] elements']; simpl in *; [done|]. by destruct e.
  - specialize (Hit (λ left right,
      if isNull (Some left) || isNull right
      then mergeOr merge (orEmpty (Some left)) (orEmpty right)
      else Return (AValue VUndefined))).
    destruct (leftIterate left right leftKey rightKey _ elements)
      as [[rows|e] elements']; simpl in *; [done|]. by destruct e.
Qed.

(** X33. The rows whose key value is [__proto__] go into [Array.prototype]
    and stay there: a call never removes an element of [Array.prototype], and
    a call of [leftIterate] whose first loop does not throw leaves there, after
    the elements it found, the right rows with that key, in order. *)
Theorem proto_key_rows_stay_in_Array_prototype
    (left right : list record) (leftKey rightKey : string)
    (select : record → option record → outcome answer)
    (select2 : option record → option record → outcome answer)
    (elements : arrayPrototype) :
  elements `prefix_of`
    (leftIterate left right leftKey rightKey select elements).2 ∧
  elements `prefix_of`
    (leftRightIterate left right leftKey rightKey select2 elements).2 ∧
  match buildIndex right rightKey ∅ elements with
  | (Return _, _) =>
      (leftIterate left right leftKey rightKey select elements).2 =
      elements ++ filter (λ r, keyOf r rightKey = "__proto__") right
  | (Throw _, _) => True
  end.
Proof.
  split_and!.
  - apply leftIterate_elements.
  - apply leftRightIterate_elements.
  - unfold leftIterate.
    destruct (buildIndex right rightKey ∅ elements) as [[index|] elements']
      eqn:Hbuild; [|done]. simpl.
    by apply buildIndex_proto in Hbuild as [_ ->].
Qed.


(** X35. [defaultMerge] does not depend on the order in which the fields of a
    record are enumerated: copying them in any order gives the same
    result. *)
Theorem copyOwn_any_order
    (src : record) (rec : draft) (fields : list (string * value)) :
  fields ≡ₚ map_to_list src →
  copyOwn src rec =
  match src !! "hasOwnProperty" with
  | Some _ => Throw TypeError
  | None =>
      Return (foldl (λ rec field, assign field.1 field.2 rec) rec fields)
  end.
Proof.
  intros Hp. unfold copyOwn.
  destruct (src !! "hasOwnProperty"); [done|].
  by rewrite (map_fold_assign_any_order src rec fields Hp).
Qed.

(** X24. A left record whose key value is a number and a right record whose
    key value is the decimal string of that number have the same property
    key: on ordinary input [innerJoin] and [leftJoin] return their merge, and
    [leftExcludingJoin] returns no row. *)
Theorem number_key_pairs_with_its_decimal_string
    (elements : arrayPrototype) (n : jsint) (l r : record)
    (leftKey rightKey : string) :
  l !! leftKey = Some (VNum n) →
  r !! rightKey = Some (VStr (pretty (intVal n))) →
  ordinary elements [l] [r] leftKey rightKey None = true →
  toPropertyKey (getField l leftKey) = toPropertyKey (getField r rightKey) ∧
  innerJoin [l] [r] leftKey rightKey None elements =
    (Return [AValue (VObj (unionMerge l r))], elements) ∧
  leftJoin [l] [r] leftKey rightKey None elements =
    (Return [AValue (VObj (unionMerge l r))], elements) ∧
  leftExcludingJoin [l] [r] leftKey rightKey None elements =
    (Return [], elements).
Proof.
  intros Hl Hr Hord. lists Hord.
  assert (keyOf l leftKey = keyOf r rightKey) as Hkey.
  { unfold keyOf, getField. by rewrite Hl, Hr. }
  assert (matches [r] rightKey (keyOf l leftKey) = [r]) as Hm.
  { unfold matches. rewrite filter_cons, decide_True by done. done. }
  split_and!.
  - unfold getField. by rewrite Hl, Hr.
  - by rewrite Hinner, idealInnerJoin_one_default, Hm.
  - by rewrite Hleft, idealLeftJoin_one_default, Hm.
  - by rewrite HleftEx, idealLeftExcludingJoin_one, Hm.
Qed.

End embedding.

(** * The joins in a fresh V8 runtime *)

Lemma outerJoin_complete_ordinary_witness :
  let merge : record → record → answer := λ l r, AValue (VObj l) in
  ordinary v8 [] people property "accountId" "pid" (Some merge) = true ∧
  (∀ m, Some merge = Some m → ∀ l r, truthy (m l r) = true) ∧
  outerJoin_complete v8 [] people property "accountId" "pid" (Some merge).
Proof.
  intros merge.
  assert (ordinary v8 [] people property "accountId" "pid" (Some merge)
          = true) as Hord by (by vm_compute).
  assert (∀ m, Some merge = Some m → ∀ l r, truthy (m l r) = true) as Hm
    by (by intros m [= <-] l r).
  split; [exact Hord|]. split; [exact Hm|].
  exact (outerJoin_complete_ordinary v8 [] people property
           "accountId" "pid" (Some merge) Hord Hm).
Defined.

(** C1, as stated, fails for a merge that returns a falsy value: with the
    merge [function() { return null; }] the one left record gives no output
    row at all. *)
Lemma outerJoin_complete_fails_falsy_merge :
  outerJoin v8 [ {[ "id" := num 1 ]} ] [] "id" "id"
            (Some (λ _ _, AValue VNull)) [] = (Return [], []) ∧
  ¬ outerJoin_complete v8 [] [ {[ "id" := num 1 ]} ] [] "id" "id"
      (Some (λ _ _, AValue VNull)).
Proof.
  split; [by vm_compute|].
  intros [Hrows _]. vm_compute in Hrows. discriminate Hrows.
Qed.

Lemma leftExcludingJoin_unmatched_rows_of_leftJoin_witness :
  ordinary v8 [] people property "accountId" "pid" None = true ∧
  ∃ rowsFor : record → list answer,
    leftJoin v8 people property "accountId" "pid" None [] =
      (Return (people ≫= rowsFor), []) ∧
    leftExcludingJoin v8 people property "accountId" "pid" None [] =
      (Return (filter (unmatched v8 property "accountId" "pid") people
                 ≫= rowsFor), []).
Proof.
  assert (ordinary v8 [] people property "accountId" "pid" None = true)
    as Hord by (by vm_compute).
  split; [exact Hord|].
  destruct (leftExcludingJoin_unmatched_rows_of_leftJoin v8 [] people
    property "accountId" "pid" None Hord) as (rowsFor & _ & Hl & He & _).
  exists rowsFor. split; [exact Hl|exact He].
Defined.

(** C5, as stated, fails for a right record that is empty: the row that
    [leftJoin] returns for the left record it matches has the empty record as
    its right side, and is not a row of [leftExcludingJoin]. *)
Lemma leftJoin_empty_right_side_of_matched_record :
  leftJoin v8 [ {[ "a" := num 1 ]} ] [ ∅ ] "id" "id" None [] =
    (Return [AValue (VObj {[ "a" := num 1 ]})], []) ∧
  mergeOr None {[ "a" := num 1 ]} ∅ =
    Return (AValue (VObj {[ "a" := num 1 ]})) ∧
  matchCount v8 [ ∅ ] "id" (keyOf v8 {[ "a" := num 1 ]} "id") = 1 ∧
  leftExcludingJoin v8 [ {[ "a" := num 1 ]} ] [ ∅ ] "id" "id" None [] =
    (Return [], []).
Proof. split_and!; by vm_compute. Qed.

(** C7. A left record whose key is the number 1 and a right record whose key
    is the string ["1"] carry different key values with the same property
    key, and are paired: the joins that keep matched pairs return their
    merge, the excluding joins nothing. *)
Theorem number_key_pairs_with_string_key :
  let l : record := {[ "id" := num 1 ]} in
  let r : record := {[ "id" := VStr "1"; "x" := VStr "a" ]} in
  let merged := AValue (VObj {[ "id" := VStr "1"; "x" := VStr "a" ]}) in
  getField v8 l "id" = Data (num 1) ∧
  getField v8 r "id" = Data (VStr "1") ∧
  toPropertyKey v8 (getField v8 l "id") = Return "1" ∧
  toPropertyKey v8 (getField v8 r "id") = Return "1" ∧
  innerJoin v8 [l] [r] "id" "id" None [] = (Return [merged], []) ∧
  leftJoin v8 [l] [r] "id" "id" None [] = (Return [merged], []) ∧
  rightJoin v8 [l] [r] "id" "id" None [] = (Return [merged], []) ∧
  outerJoin v8 [l] [r] "id" "id" None [] = (Return [merged], []) ∧
  leftExcludingJoin v8 [l] [r] "id" "id" None [] = (Return [], []) ∧
  rightExcludingJoin v8 [l] [r] "id" "id" None [] = (Return [], []) ∧
  outerExcludingJoin v8 [l] [r] "id" "id" None [] = (Return [], []).
Proof. intros l r merged. split_and!; by vm_compute. Qed.

(** C9. With a right row whose key value is [__proto__], [outerJoin] throws
    where [leftJoin] and [rightExcludingJoin] return: its first pass pushes
    that row into [Array.prototype], and its second pass then finds the row
    under the key [0]. *)
Theorem outerJoin_throws_where_its_parts_return :
  let left : list record := [ {[ "id" := num 7 ]} ] in
  let right : list record :=
    [ {[ "id" := num 0 ]}; {[ "id" := VStr "__proto__" ]} ] in
  outerJoin v8 left right "id" "id" None [] =
    (Throw TypeError, [ {[ "id" := VStr "__proto__" ]} ]) ∧
  leftJoin v8 left right "id" "id" None [] =
    (Return [AValue (VObj {[ "id" := num 7 ]})],
     [ {[ "id" := VStr "__proto__" ]} ]) ∧
  rightExcludingJoin v8 left right "id" "id" None [] =
    (Return [AValue (VObj {[ "id" := num 0 ]})], []).
Proof. intros left right. split_and!; by vm_compute. Qed.

(** C10. A left record without the left key field is not looked up under
    [undefined] when the key names a built-in method: it reads the method,
    and is not paired with the right records without the right key field. *)
Theorem keyless_record_reads_builtin :
  let l : record := {[ "name" := VStr "Ann" ]} in
  let r : record := {[ "loc" := VStr "Main" ]} in
  l !! "constructor" = None ∧ r !! "pid" = None ∧
  keyOf v8 l "constructor" = "function Object() { [native code] }" ∧
  keyOf v8 r "pid" = "undefined" ∧
  innerJoin v8 [l] [r] "constructor" "pid" None [] = (Return [], []).
Proof. intros l r. split_and!; by vm_compute. Qed.

(** * The joins on the example data *)

Lemma joins_return_on_ordinary_input_witness :
  ordinary v8 [] people property "accountId" "pid" None = true ∧
  (∃ rows, innerJoin v8 people property "accountId" "pid" None [] =
             (Return rows, [])) ∧
  (∃ rows, outerJoin v8 people property "accountId" "pid" None [] =
             (Return rows, [])).
Proof.
  assert (ordinary v8 [] people property "accountId" "pid" None = true)
    as Hord by (by vm_compute).
  split; [exact Hord|].
  destruct (joins_return_on_ordinary_input v8 [] people property
    "accountId" "pid" None Hord) as (Hi & Ho & _).
  split; [exact Hi|exact Ho].
Defined.

Lemma innerJoin_length_ordinary_witness :
  ordinary v8 [] people property "accountId" "pid" None = true ∧
  ∃ rows,
    innerJoin v8 people property "accountId" "pid" None [] =
      (Return rows, []) ∧
    length rows = 3.
Proof.
  assert (ordinary v8 [] people property "accountId" "pid" None = true)
    as Hord by (by vm_compute).
  split; [exact Hord|].
  destruct (innerJoin_length_ordinary v8 [] people property
    "accountId" "pid" Hord) as (rows & Hrows & Hlen & _).
  exists rows. split; [exact Hrows|]. rewrite Hlen. by vm_compute.
Defined.

Lemma leftJoin_length_ordinary_witness :
  ordinary v8 [] people property "accountId" "pid" None = true ∧
  ∃ rows,
    leftJoin v8 people property "accountId" "pid" None [] =
      (Return rows, []) ∧
    length rows = 4.
Proof.
  assert (ordinary v8 [] people property "accountId" "pid" None = true)
    as Hord by (by vm_compute).
  split; [exact Hord|].
  destruct (leftJoin_length_ordinary v8 [] people property
    "accountId" "pid" Hord) as (rows & Hrows & Hlen & _).
  exists rows. split; [exact Hrows|]. rewrite Hlen. by vm_compute.
Defined.

Lemma innerJoin_duplicate_keys_ordinary_witness :
  ordinary v8 []
    ([] ++ {[ "id" := num 1 ]} :: [])
    [ {[ "id" := num 1; "x" := VStr "a" ]};
      {[ "id" := num 1; "x" := VStr "b" ]} ] "id" "id" None = true ∧
  innerJoin v8 [ {[ "id" := num 1 ]} ]
            [ {[ "id" := num 1; "x" := VStr "a" ]};
              {[ "id" := num 1; "x" := VStr "b" ]} ]
            "id" "id" None [] =
    (Return [ AValue (VObj {[ "id" := num 1; "x" := VStr "a" ]});
              AValue (VObj {[ "id" := num 1; "x" := VStr "b" ]}) ], []).
Proof.
  assert (ordinary v8 []
    ([] ++ {[ "id" := num 1 ]} :: [])
    [ {[ "id" := num 1; "x" := VStr "a" ]};
      {[ "id" := num 1; "x" := VStr "b" ]} ] "id" "id" None = true)
    as Hord by (by vm_compute).
  split; [exact Hord|].
  destruct (innerJoin_duplicate_keys_ordinary v8 [] [] []
    [ {[ "id" := num 1; "x" := VStr "a" ]};
      {[ "id" := num 1; "x" := VStr "b" ]} ]
    {[ "id" := num 1 ]} "id" "id" Hord)
    as (rowsBefore & rowsAfter & Hb & Ha & Hrows & _).
  injection Hb as <-. injection Ha as <-.
  simpl app in Hrows. rewrite Hrows. by vm_compute.
Defined.

Lemma outerJoin_leftJoin_rightExcludingJoin_ordinary_witness :
  ordinary v8 [] people property "accountId" "pid" None = true ∧
  ∃ leftRows rightRows,
    leftJoin v8 people property "accountId" "pid" None [] =
      (Return leftRows, []) ∧
    rightExcludingJoin v8 people property "accountId" "pid" None [] =
      (Return rightRows, []) ∧
    outerJoin v8 people property "accountId" "pid" None [] =
      (Return (leftRows ++ rightRows), []).
Proof.
  assert (ordinary v8 [] people property "accountId" "pid" None = true)
    as Hord by (by vm_compute).
  split; [exact Hord|].
  exact (outerJoin_leftJoin_rightExcludingJoin_ordinary v8 [] people
           property "accountId" "pid" None Hord).
Defined.

Lemma keyless_records_are_paired_ordinary_witness :
  let left : list record :=
    [ {[ "name" := VStr "Ann" ]};
      {[ "name" := VStr "Bob"; "id" := num 1 ]} ] in
  let right : list record :=
    [ {[ "pid" := num 1 ]}; {[ "loc" := VStr "Main" ]} ] in
  ordinary v8 [] left right "id" "pid" None = true ∧
  inheritedName v8 "id" = false ∧ inheritedName v8 "pid" = false ∧
  ∃ rows,
    innerJoin v8 left right "id" "pid" None [] = (Return rows, []) ∧
    AValue (VObj {[ "name" := VStr "Ann"; "loc" := VStr "Main" ]}) ∈ rows.
Proof.
  intros left right.
  assert (ordinary v8 [] left right "id" "pid" None = true)
    as Hord by (by vm_compute).
  split; [exact Hord|]. split; [reflexivity|]. split; [reflexivity|].
  destruct (keyless_records_are_paired_ordinary v8 [] left right "id" "pid"
    {[ "name" := VStr "Ann" ]} {[ "loc" := VStr "Main" ]}
    Hord eq_refl eq_refl) as (rows & Hrows & _ & _ & Hin).
  - apply list_elem_of_here.
  - apply list_elem_of_further, list_elem_of_here.
  - reflexivity.
  - reflexivity.
  - exists rows. split; [exact Hrows|].
    replace (AValue (VObj {[ "name" := VStr "Ann"; "loc" := VStr "Main" ]}))
      with (AValue (VObj (unionMerge {[ "name" := VStr "Ann" ]}
                                     {[ "loc" := VStr "Main" ]})));
      [exact Hin|]. by vm_compute.
Defined.

Lemma rightJoin_rows_default_witness :
  ordinary v8 [] people property "accountId" "pid" None = true ∧
  ∃ rows,
    rightJoin v8 people property "accountId" "pid" None [] =
      (Return rows, []) ∧
    length rows = 5.
Proof.
  assert (ordinary v8 [] people property "accountId" "pid" None = true)
    as Hord by (by vm_compute).
  split; [exact Hord|].
  destruct (rightJoin_rows_default v8 [] people property
    "accountId" "pid" Hord) as (rows & Hrows & _ & Hlen & _).
  exists rows. split; [exact Hrows|]. rewrite Hlen. by vm_compute.
Defined.

Lemma outerExcludingJoin_leftExcluding_rightExcluding_witness :
  ordinary v8 [] people property "accountId" "pid" None = true ∧
  ∃ leftRows rightRows,
    leftExcludingJoin v8 people property "accountId" "pid" None [] =
      (Return leftRows, []) ∧
    rightExcludingJoin v8 people property "accountId" "pid" None [] =
      (Return rightRows, []) ∧
    outerExcludingJoin v8 people property "accountId" "pid" None [] =
      (Return (leftRows ++ rightRows), []).
Proof.
  assert (ordinary v8 [] people property "accountId" "pid" None = true)
    as Hord by (by vm_compute).
  split; [exact Hord|].
  exact (outerExcludingJoin_leftExcluding_rightExcluding v8 [] people
           property "accountId" "pid" None Hord).
Defined.

Lemma leftJoin_is_inner_and_excluding_witness :
  ordinary v8 [] people property "accountId" "pid" None = true ∧
  ∃ leftRows innerRows excludingRows,
    leftJoin v8 people property "accountId" "pid" None [] =
      (Return leftRows, []) ∧
    innerJoin v8 people property "accountId" "pid" None [] =
      (Return innerRows, []) ∧
    leftExcludingJoin v8 people property "accountId" "pid" None [] =
      (Return excludingRows, []) ∧
    leftRows ≡ₚ innerRows ++ excludingRows.
Proof.
  assert (ordinary v8 [] people property "accountId" "pid" None = true)
    as Hord by (by vm_compute).
  split; [exact Hord|].
  destruct (leftJoin_is_inner_and_excluding v8 [] people property
    "accountId" "pid" None Hord)
    as (leftRows & innerRows & excludingRows & Hl & Hi & He & Hp & _).
  exists leftRows, innerRows, excludingRows. by split_and!.
Defined.

Lemma innerJoin_exchange_witness :
  let merge : record → record → answer := λ l r, AValue (VObj (r ∪ l)) in
  ordinary v8 [] people property "accountId" "pid" (Some merge) = true ∧
  sameUpToOrder
    (innerJoin v8 people property "accountId" "pid" (Some merge))
    (innerJoin v8 property people "pid" "accountId"
       (Some (λ r l, merge l r)))
    [].
Proof.
  intros merge.
  assert (ordinary v8 [] people property "accountId" "pid" (Some merge)
          = true) as Hord by (by vm_compute).
  split; [exact Hord|].
  exact (innerJoin_exchange v8 [] people property "accountId" "pid" merge
           Hord).
Defined.

Lemma outerJoin_is_inner_and_excluding_witness :
  ordinary v8 [] people property "accountId" "pid" None = true ∧
  ∃ outerRows innerRows excludingRows,
    outerJoin v8 people property "accountId" "pid" None [] =
      (Return outerRows, []) ∧
    innerJoin v8 people property "accountId" "pid" None [] =
      (Return innerRows, []) ∧
    outerExcludingJoin v8 people property "accountId" "pid" None [] =
      (Return excludingRows, []) ∧
    outerRows ≡ₚ innerRows ++ excludingRows.
Proof.
  assert (ordinary v8 [] people property "accountId" "pid" None = true)
    as Hord by (by vm_compute).
  split; [exact Hord|].
  destruct (outerJoin_is_inner_and_excluding v8 [] people property
    "accountId" "pid" None Hord)
    as (outerRows & innerRows & excludingRows & Ho & Hi & He & Hp & _).
  exists outerRows, innerRows, excludingRows. by split_and!.
Defined.

Lemma joins_with_empty_right_witness :
  ordinary v8 [] people [] "accountId" "pid" None = true ∧
  ∃ alone,
    Forall2 (λ l merged, mergeOr None l ∅ = Return merged) people alone ∧
    leftJoin v8 people [] "accountId" "pid" None [] =
      (Return (filter (λ v, truthy v) alone), []) ∧
    innerJoin v8 people [] "accountId" "pid" None [] = (Return [], []).
Proof.
  assert (ordinary v8 [] people [] "accountId" "pid" None = true)
    as Hord by (by vm_compute).
  split; [exact Hord|].
  destruct (joins_with_empty_right v8 [] people "accountId" "pid" None Hord)
    as (alone & Halone & Hi & _ & _ & Hl & _).
  exists alone. split; [exact Halone|]. split; [exact Hl|exact Hi].
Defined.

Lemma excludingJoins_return_unmatched_records_witness :
  ordinary v8 [] people property "accountId" "pid" None = true ∧
  leftExcludingJoin v8 people property "accountId" "pid" None [] =
    (Return [ AValue (VObj {[ "name" := VStr "Julie Jones";
                              "accountId" := num 2 ]}) ], []).
Proof.
  assert (ordinary v8 [] people property "accountId" "pid" None = true)
    as Hord by (by vm_compute).
  split; [exact Hord|].
  destruct (excludingJoins_return_unmatched_records v8 [] people property
    "accountId" "pid" Hord) as (Hl & _).
  rewrite Hl. by vm_compute.
Defined.

Lemma leftIterate_keeps_truthy_results_ordinary_witness :
  ordinaryRows v8 [] people "accountId" = true ∧
  ordinaryRows v8 [] property "pid" = true ∧
  leftIterate v8 people property "accountId" "pid"
    (λ row entry, Return (AValue (VBool (isNull entry)))) [] =
  (Return [AValue (VBool true)], []).
Proof.
  assert (ordinaryRows v8 [] people "accountId" = true) as Hl
    by (by vm_compute).
  assert (ordinaryRows v8 [] property "pid" = true) as Hr
    by (by vm_compute).
  split; [exact Hl|]. split; [exact Hr|].
  rewrite (leftIterate_keeps_truthy_results_ordinary v8 [] people property
    "accountId" "pid" (λ row entry, AValue (VBool (isNull entry))) Hl Hr).
  by vm_compute.
Defined.

Lemma innerJoin_rows_are_matching_pairs_witness :
  ordinary v8 [] people property "accountId" "pid" None = true ∧
  ∃ rows,
    innerJoin v8 people property "accountId" "pid" None [] =
      (Return rows, []) ∧
    AValue (VObj {[ "name" := VStr "Joe Smith"; "accountId" := num 1;
                    "pid" := num 1; "loc" := VStr "123 Main Street" ]})
      ∈ rows.
Proof.
  assert (ordinary v8 [] people property "accountId" "pid" None = true)
    as Hord by (by vm_compute).
  split; [exact Hord|].
  destruct (innerJoin_rows_are_matching_pairs v8 [] people property
    "accountId" "pid" None Hord) as (rows & Hrows & Hiff).
  exists rows. split; [exact Hrows|].
  apply Hiff. split; [reflexivity|].
  exists {[ "name" := VStr "Joe Smith"; "accountId" := num 1 ]},
         {[ "pid" := num 1; "loc" := VStr "123 Main Street" ]}.
  split_and!.
  - apply list_elem_of_here.
  - apply list_elem_of_here.
  - reflexivity.
  - by vm_compute.
Defined.

Lemma unique_right_keys_keep_left_length_witness :
  let right : list record := [ {[ "pid" := num 1 ]}; {[ "pid" := num 5 ]} ] in
  ordinary v8 [] people right "accountId" "pid" None = true ∧
  NoDup ((λ r, keyOf v8 r "pid") <$> right) ∧
  ∃ leftRows,
    leftJoin v8 people right "accountId" "pid" None [] =
      (Return leftRows, []) ∧
    length leftRows = 3.
Proof.
  intros right.
  assert (ordinary v8 [] people right "accountId" "pid" None = true)
    as Hord by (by vm_compute).
  assert (NoDup ((λ r, keyOf v8 r "pid") <$> right)) as Hnodup.
  { vm_compute. apply NoDup_cons.
    split; [by intros [=]%list_elem_of_singleton|apply NoDup_singleton]. }
  split; [exact Hord|]. split; [exact Hnodup|].
  destruct (unique_right_keys_keep_left_length v8 [] people right
    "accountId" "pid" Hord Hnodup) as (leftRows & innerRows & Hl & _ & Hlen & _).
  exists leftRows. split; [exact Hl|exact Hlen].
Defined.

Lemma defaultMerge_plain_records_witness :
  plainRecord {[ "a" := num 1; "b" := num 2 ]} = true ∧
  plainRecord {[ "b" := num 3; "c" := num 4 ]} = true ∧
  defaultMerge {[ "a" := num 1; "b" := num 2 ]}
               {[ "b" := num 3; "c" := num 4 ]} =
    Return (AValue (VObj {[ "a" := num 1; "b" := num 3; "c" := num 4 ]})).
Proof.
  assert (plainRecord {[ "a" := num 1; "b" := num 2 ]} = true) as Hl
    by (by vm_compute).
  assert (plainRecord {[ "b" := num 3; "c" := num 4 ]} = true) as Hr
    by (by vm_compute).
  split; [exact Hl|]. split; [exact Hr|].
  destruct (defaultMerge_plain_records
    {[ "a" := num 1; "b" := num 2 ]} {[ "b" := num 3; "c" := num 4 ]}
    Hl Hr) as (rec & Hrec & Hlook & _).
  pose proof Hrec as Hc. vm_compute in Hc. injection Hc as <-.
  rewrite Hrec. by vm_compute.
Defined.



Lemma outerJoin_length_default_witness :
  ordinary v8 [] people property "accountId" "pid" None = true ∧
  ∃ rows,
    outerJoin v8 people property "accountId" "pid" None [] =
      (Return rows, []) ∧
    length rows = 6.
Proof.
  assert (ordinary v8 [] people property "accountId" "pid" None = true)
    as Hord by (by vm_compute).
  split; [exact Hord|].
  destruct (outerJoin_length_default v8 [] people property
    "accountId" "pid" Hord) as (rows & Hrows & Hlen & _).
  exists rows. split; [exact Hrows|]. rewrite Hlen. by vm_compute.
Defined.

Lemma leftJoin_is_innerJoin_when_all_match_witness :
  let left : list record :=
    [ {[ "name" := VStr "Joe Smith"; "accountId" := num 1 ]} ] in
  ordinary v8 [] left property "accountId" "pid" None = true ∧
  (∀ l, l ∈ left →
     ∃ r, r ∈ property ∧ keyOf v8 r "pid" = keyOf v8 l "accountId") ∧
  ∃ rows,
    leftJoin v8 left property "accountId" "pid" None [] =
      (Return rows, []) ∧
    innerJoin v8 left property "accountId" "pid" None [] =
      (Return rows, []).
Proof.
  intros left.
  assert (ordinary v8 [] left property "accountId" "pid" None = true)
    as Hord by (by vm_compute).
  assert (∀ l, l ∈ left →
     ∃ r, r ∈ property ∧ keyOf v8 r "pid" = keyOf v8 l "accountId") as Hall.
  { intros l ->%list_elem_of_singleton.
    exists {[ "pid" := num 1; "loc" := VStr "123 Main Street" ]}.
    split; [apply list_elem_of_here|reflexivity]. }
  split; [exact Hord|]. split; [exact Hall|].
  destruct (leftJoin_is_innerJoin_when_all_match v8 [] left property
    "accountId" "pid" None Hord Hall) as (rows & Hl & Hi & _).
  exists rows. split; [exact Hl|exact Hi].
Defined.

Lemma falsy_merge_empties_every_join_witness :
  let merge : record → record → answer := λ _ _, AValue (num 0) in
  ordinary v8 [] people property "accountId" "pid" (Some merge) = true ∧
  (∀ l r : record, truthy (merge l r) = false) ∧
  outerJoin v8 people property "accountId" "pid" (Some merge) [] =
    (Return [], []).
Proof.
  intros merge.
  assert (ordinary v8 [] people property "accountId" "pid" (Some merge)
          = true) as Hord by (by vm_compute).
  split; [exact Hord|]. split; [intros l r; reflexivity|].
  apply (falsy_merge_empties_every_join v8 [] people property
    "accountId" "pid" merge Hord).
  intros l r. reflexivity.
Defined.

Lemma reserved_right_key_throws_witness :
  let row : record := {[ "pid" := VStr "join" ]} in
  row ∈ property ++ [row] ∧
  toPropertyKey v8 (getField v8 row "pid") = Return "join" ∧
  reservedKey v8 "join" = true ∧
  (innerJoin v8 people (property ++ [row]) "accountId" "pid" None []).1 =
    Throw TypeError.
Proof.
  intros row.
  assert (row ∈ property ++ [row]) as Hin.
  { apply elem_of_app. right. apply list_elem_of_here. }
  split; [exact Hin|]. split; [reflexivity|]. split; [reflexivity|].
  destruct (reserved_right_key_throws v8 [] people (property ++ [row])
    "accountId" "pid" None row "join" Hin eq_refl eq_refl) as (Hi & _).
  exact Hi.
Defined.

Lemma copyOwn_any_order_witness :
  let src : record := {[ "a" := num 1; "__proto__" := VNull ]} in
  [ ("__proto__", VNull); ("a", num 1) ] ≡ₚ map_to_list src ∧
  copyOwn src (Draft ProtoObject ∅) =
    Return (Draft ProtoNull {[ "a" := num 1 ]}).
Proof.
  intros src.
  assert ([ ("__proto__", VNull); ("a", num 1) ] ≡ₚ map_to_list src) as Hp.
  { vm_compute.
    first [ reflexivity | apply perm_swap ]. }
  split; [exact Hp|].
  rewrite (copyOwn_any_order src (Draft ProtoObject ∅) _ Hp).
  by vm_compute.
Defined.

Lemma number_key_pairs_with_its_decimal_string_witness :
  let l : record := {[ "id" := num 42 ]} in
  let r : record := {[ "id" := VStr "42"; "x" := VStr "a" ]} in
  l !! "id" = Some (num 42) ∧
  r !! "id" = Some (VStr (pretty 42%Z)) ∧
  ordinary v8 [] [l] [r] "id" "id" None = true ∧
  innerJoin v8 [l] [r] "id" "id" None [] =
    (Return [AValue (VObj {[ "id" := VStr "42"; "x" := VStr "a" ]})], []).
Proof.
  intros l r.
  assert (l !! "id" = Some (num 42)) as Hl by reflexivity.
  assert (r !! "id" = Some (VStr (pretty 42%Z))) as Hr by reflexivity.
  assert (ordinary v8 [] [l] [r] "id" "id" None = true) as Hord
    by (by vm_compute).
  split; [exact Hl|]. split; [exact Hr|]. split; [exact Hord|].
  destruct (number_key_pairs_with_its_decimal_string v8 [] (JsInt 42 I) l r
    "id" "id" Hl Hr Hord) as (_ & Hinner & _).
  rewrite Hinner. by vm_compute.
Defined.
